(** * DisplayListLogBuffer: the circular command log and its duration tables

    A shallow embedding of [frameworks/base/libs/hwui/DisplayListLogBuffer.cpp]
    and the properties of its ring buffer, its per-label duration statistics
    and its report.

    Conventions of the embedding:
    - an [int] or [nsecs_t] value is a [Z]; arithmetic the code performs on it
      is followed by the two's complement wrap-around of its width;
    - the pointers [mStart] and [mEnd] into the block allocated at
      [mBufferFirst] are their offsets in slots from [mBufferFirst];
    - a [const char*] label is an address; the text stored there is read
      through the static memory [cstring];
    - a [FILE*] is [None] for [NULL] and [Some s] for an open stream whose
      content so far is [s]; the ALOGD channel is the list of messages sent. *)

From Stdlib Require Import ZArith Lia Ascii Sorted.
From stdpp Require Import list strings.

Local Open Scope string_scope.
Local Open Scope list_scope.
Local Open Scope nat_scope.

(** ** Machine integers *)

Definition wrap (bits : Z) (x : Z) : Z :=
  ((x + 2 ^ (bits - 1)) mod 2 ^ bits - 2 ^ (bits - 1))%Z.

Definition int32 (x : Z) : Z := wrap 32 x.
Definition int64 (x : Z) : Z := wrap 64 x.

Definition INT_MAX : Z := (2 ^ 31 - 1)%Z.
Definition INT64_MIN : Z := (- 2 ^ 63)%Z.
Definition INT64_MAX : Z := (2 ^ 63 - 1)%Z.

Definition is_int32 (x : Z) : Prop := (- 2 ^ 31 <= x <= INT_MAX)%Z.
Definition is_int64 (x : Z) : Prop := (INT64_MIN <= x <= INT64_MAX)%Z.

(** ** Data *)

(** A [const char*]: the address of a string in static memory. *)
Definition ptr : Type := N.

(** [struct OpLog { int level; const char* label; }] *)
Record OpLog : Type := mkOpLog { level : Z; label : ptr }.

(** [struct OpEntry], the statistics kept for one label. *)
Record OpEntry : Type := mkOpEntry {
  mName : ptr;
  mCount : Z;
  mMaxDuration : Z;
  mTotalDuration : Z;
  mLastDuration : Z
}.

(** Modelled from the spec: the constructor [OpEntry(name, count, duration)]
    is declared in DisplayListLogBuffer.h, which is not among the sources.
    The spec says of a new entry: count=1 and all duration fields set to
    [duration]. *)
Definition OpEntry_new (name : ptr) (count : Z) (duration : Z) : OpEntry :=
  {| mName := name; mCount := count; mMaxDuration := duration;
     mTotalDuration := duration; mLastDuration := duration |}.

(** ** KeyedVector<const char*, OpEntry>

    The container of libutils: a vector of key/value pairs kept in strictly
    increasing key order; keys are compared as pointers. *)
Definition KeyedVector : Type := list (ptr * OpEntry).

(** [indexOfKey]: the position of the key, [None] for NAME_NOT_FOUND. *)
Fixpoint indexOfKey (key : ptr) (v : KeyedVector) : option nat :=
  match v with
  | [] => None
  | (k, _) :: rest =>
      if (k =? key)%N then Some 0 else S <$> indexOfKey key rest
  end.

(** [add]: the pair is inserted at its place in key order; the value of a key
    already present is replaced. *)
Fixpoint add (key : ptr) (value : OpEntry) (v : KeyedVector) : KeyedVector :=
  match v with
  | [] => [(key, value)]
  | (k, x) :: rest =>
      if (key <? k)%N then (key, value) :: (k, x) :: rest
      else if (k =? key)%N then (key, value) :: rest
      else (k, x) :: add key value rest
  end.

Definition valueAt (index : nat) (v : KeyedVector) : option OpEntry :=
  snd <$> v !! index.

Definition valueFor (key : ptr) (v : KeyedVector) : option OpEntry :=
  index ← indexOfKey key v; valueAt index v.

(** [editValueAt(index)] followed by the assignments [f] to the item. *)
Definition editValueAt (index : nat) (f : OpEntry → OpEntry) (v : KeyedVector)
  : KeyedVector :=
  alter (λ kv, (kv.1, f kv.2)) index v.

Fixpoint sorted_keys (v : KeyedVector) : Prop :=
  match v with
  | [] => True
  | (k, _) :: rest =>
      match rest with
      | [] => True
      | (k', _) :: _ => (k < k')%N
      end ∧ sorted_keys rest
  end.

(** [Vector::insertAt(item, index)] *)
Definition insertAt {A : Type} (item : A) (index : nat) (l : list A) : list A :=
  take index l ++ item :: drop index l.

(** ** The object *)

Record DisplayListLogBuffer : Type := mkBuffer {
  mBuffer : list OpLog;
  mStart : nat;
  mEnd : nat;
  mOpBuffer : KeyedVector;
  mOpBufferPerFrame : KeyedVector;
  mIsLogCommands : bool
}.

Definition set_ring (buf : list OpLog) (start end_ : nat)
    (s : DisplayListLogBuffer) : DisplayListLogBuffer :=
  {| mBuffer := buf; mStart := start; mEnd := end_;
     mOpBuffer := mOpBuffer s; mOpBufferPerFrame := mOpBufferPerFrame s;
     mIsLogCommands := mIsLogCommands s |}.

Definition set_tables (all perFrame : KeyedVector)
    (s : DisplayListLogBuffer) : DisplayListLogBuffer :=
  {| mBuffer := mBuffer s; mStart := mStart s; mEnd := mEnd s;
     mOpBuffer := all; mOpBufferPerFrame := perFrame;
     mIsLogCommands := mIsLogCommands s |}.

Definition set_mode (flag : bool) (perFrame : KeyedVector)
    (s : DisplayListLogBuffer) : DisplayListLogBuffer :=
  {| mBuffer := mBuffer s; mStart := mStart s; mEnd := mEnd s;
     mOpBuffer := mOpBuffer s; mOpBufferPerFrame := perFrame;
     mIsLogCommands := flag |}.

(** Both tables are in strictly increasing key order, as a KeyedVector is. *)
Definition tables_sorted (s : DisplayListLogBuffer) : Prop :=
  sorted_keys (mOpBuffer s) ∧ sorted_keys (mOpBufferPerFrame s).

(** What a run of a loop can end in: a value, a read outside the allocated
    block, or no answer within the steps allowed. *)
Inductive outcome (A : Type) : Type :=
  | Done (a : A)
  | Fault
  | OutOfFuel.
Arguments Done {A} a.
Arguments Fault {A}.
Arguments OutOfFuel {A}.

(** ** printf *)

Fixpoint spaces (n : nat) : string :=
  match n with
  | O => ""
  | S n' => String " "%char (spaces n')
  end.

(** [%*s]: the argument padded to the given width, on the left; a negative
    width stands for the [-] flag and the width negated. The negation is an
    [int] operation: of INT_MIN it is INT_MIN again, a width below zero, for
    which nothing is padded. *)
Definition printf_star_s (width : Z) (arg : string) : string :=
  let w := if (width <? 0)%Z then int32 (- width) else width in
  let pad := spaces (Z.to_nat w - String.length arg) in
  if (width <? 0)%Z then arg +:+ pad else pad +:+ arg.

(** [%10s] and [%-25s] *)
Definition printf_right (width : nat) (arg : string) : string :=
  spaces (width - String.length arg) +:+ arg.
Definition printf_left (width : nat) (arg : string) : string :=
  arg +:+ spaces (width - String.length arg).

(** ["%-25s  %10s  %10s  %10s  %10s  %10s"] applied to the column titles. *)
Definition stat_header : string :=
  printf_left 25 "(ms)" +:+ "  " +:+ printf_right 10 "total" +:+ "  "
  +:+ printf_right 10 "count" +:+ "  " +:+ printf_right 10 "average" +:+ "  "
  +:+ printf_right 10 "max" +:+ "  " +:+ printf_right 10 "last".

Definition newline : string := String (ascii_of_nat 10) "".

(** The lines written one after the other. *)
Definition cat_lines (lines : list string) : string :=
  foldr String.append "" lines.

(** A list of entries in order of non-increasing total duration. *)
Definition descending (rows : list OpEntry) : Prop :=
  StronglySorted (λ a b, (mTotalDuration b ≤ mTotalDuration a)%Z) rows.

(** The two results of recording a duration on an entry found in a table:
    the entry with the duration added, and the entry started over. *)
Definition accumulated (duration : Z) (item : OpEntry) : OpEntry :=
  {| mName := mName item;
     mCount := mCount item + 1;
     mMaxDuration := mMaxDuration item `max` duration;
     mTotalDuration := mTotalDuration item + duration;
     mLastDuration := duration |}.

Definition started_over (duration : Z) (item : OpEntry) : OpEntry :=
  {| mName := mName item;
     mCount := 1;
     mMaxDuration := duration;
     mTotalDuration := duration;
     mLastDuration := duration |}.

Section Program.

(** [NUM_COMMANDS] is 50 in the source; the ring is studied at every size. *)
Variable NUM_COMMANDS : nat.

(** The macro of Debug.h that compiles the duration tables in or out. *)
Variable DEBUG_DISPLAY_LIST : bool.

(** Static memory: the text a label points to. *)
Variable cstring : ptr → string.

(** The row ["%-25s  %10.2f  %10d  %10.2f  %10.2f  %10.2f"] of an entry; its
    numbers are computed and printed in floating point, which is left to the
    C library. *)
Variable stat_row : OpEntry → string.

Definition BUFFER_SIZE : nat := NUM_COMMANDS + 1.
Definition mBufferFirst : nat := 0.
Definition mBufferLast : nat := mBufferFirst + BUFFER_SIZE - 1.

(** The constructor. malloc does not initialise the block and the constructor
    does not initialise [mIsLogCommands]: both start with what was there. *)
Definition construct (uninit : nat → OpLog) (flag : bool) : DisplayListLogBuffer :=
  {| mBuffer := uninit <$> seq 0 BUFFER_SIZE;
     mStart := mBufferFirst;
     mEnd := mBufferFirst;
     mOpBuffer := [];
     mOpBufferPerFrame := [];
     mIsLogCommands := flag |}.

(** ** writeCommand(level, label) *)
Definition writeCommand (lvl : Z) (lbl : ptr) (s : DisplayListLogBuffer)
  : DisplayListLogBuffer :=
  let buf := <[mEnd s := {| level := lvl; label := lbl |}]> (mBuffer s) in
  let end_ := if mEnd s =? mBufferLast then mBufferFirst else S (mEnd s) in
  let start :=
    if end_ =? mStart s then
      let start' := S (mStart s) in
      if mBufferLast <? start' then mBufferFirst else start'
    else mStart s in
  set_ring buf start end_ s.

(** ** outputCommandsInternal(file) *)

(** The inner loop: the first position whose total is strictly smaller than
    the entry's, or the size of the list. *)
Fixpoint find_index (entry : OpEntry) (lst : list OpEntry) (j : nat) : nat :=
  match lst with
  | [] => j
  | e :: rest =>
      if (mTotalDuration e <? mTotalDuration entry)%Z then j
      else find_index entry rest (S j)
  end.

Definition insert_entry (lst : list OpEntry) (entry : OpEntry) : list OpEntry :=
  insertAt entry (find_index entry lst 0) lst.

(** The list built from [valueAt(0)] by the loop over [valueAt(1)] to
    [valueAt(count - 1)]. *)
Definition sorted_list (ops : KeyedVector) : list OpEntry :=
  match ops with
  | [] => []
  | kv0 :: rest => fold_left insert_entry (snd <$> rest) [kv0.2]
  end.

Definition emit (file : option string) (log : list string) (text : string)
  : option string * list string :=
  match file with
  | Some content => (Some (content +:+ text +:+ newline), log)
  | None => (None, log ++ [text])
  end.

Definition outputCommandsInternal (file : option string) (log : list string)
    (s : DisplayListLogBuffer)
  : DisplayListLogBuffer * (option string * list string) :=
  if mIsLogCommands s || bool_decide (is_Some file) then
    let ops := if file is None then mOpBufferPerFrame s else mOpBuffer s in
    let count := length ops in
    if count =? 0 then (s, (file, log))
    else
      let out :=
        match file with
        | Some content => (Some (content +:+ newline +:+ stat_header +:+ newline), log)
        | None => (None, log ++ [stat_header])
        end in
      let lst := sorted_list ops in
      (s, fold_left (λ o entry, emit o.1 o.2 (stat_row entry)) (take count lst) out)
  else (s, (file, log)).

(** ** outputCommands(file) *)

(** ["%*s%s\n"] applied to [2 * level], [""] and the label. *)
Definition op_line (e : OpLog) : string :=
  printf_star_s (int32 (2 * level e)) "" +:+ cstring (label e) +:+ newline.

Definition advance (tmpBufferPtr : nat) : nat :=
  let p := S tmpBufferPtr in
  if mBufferLast <? p then mBufferFirst else p.

(** The loop of outputCommands. fprintf on a NULL stream is a fault, as is a
    read outside the block. *)
Fixpoint outputCommands_loop (fuel : nat) (s : DisplayListLogBuffer)
    (tmpBufferPtr : nat) (file : option string) : outcome (option string) :=
  match fuel with
  | O => OutOfFuel
  | S fuel' =>
      if tmpBufferPtr =? mEnd s then Done file
      else
        match mBuffer s !! tmpBufferPtr, file with
        | Some e, Some content =>
            outputCommands_loop fuel' s (advance tmpBufferPtr)
              (Some (content +:+ op_line e))
        | _, _ => Fault
        end
  end.

Definition outputCommands (fuel : nat) (file : option string) (log : list string)
    (s : DisplayListLogBuffer)
  : outcome (DisplayListLogBuffer * (option string * list string)) :=
  match outputCommands_loop fuel s (mStart s) file with
  | Done file' => Done (outputCommandsInternal file' log s)
  | Fault => Fault
  | OutOfFuel => OutOfFuel
  end.

(** ** writeCommand(level, label, duration) *)

(** The assignments to an item found in a table. *)
Definition update_item (duration : Z) (item : OpEntry) : OpEntry :=
  let item1 :=
    if (mTotalDuration item <? int64 (INT64_MAX - duration))%Z then
      {| mName := mName item;
         mCount := int32 (mCount item + 1);
         mMaxDuration :=
           if (mMaxDuration item <? duration)%Z then duration
           else mMaxDuration item;
         mTotalDuration := int64 (mTotalDuration item + duration);
         mLastDuration := mLastDuration item |}
    else
      {| mName := mName item;
         mCount := 1;
         mMaxDuration := duration;
         mTotalDuration := duration;
         mLastDuration := mLastDuration item |} in
  {| mName := mName item1; mCount := mCount item1;
     mMaxDuration := mMaxDuration item1;
     mTotalDuration := mTotalDuration item1;
     mLastDuration := duration |}.

(** The body of the loop over the two tables, for a table to update. *)
Definition update_table (lbl : ptr) (duration : Z) (buffer : KeyedVector)
  : KeyedVector :=
  match indexOfKey lbl buffer with
  | Some index => editValueAt index (update_item duration) buffer
  | None => add lbl (OpEntry_new lbl 1 duration) buffer
  end.

Definition writeCommand_duration (lvl : Z) (lbl : ptr) (duration : Z)
    (s : DisplayListLogBuffer) : DisplayListLogBuffer :=
  let s1 :=
    if DEBUG_DISPLAY_LIST then
      (* needUpdate[] = {true, mIsLogCommands} *)
      let needUpdate0 := true in
      let needUpdate1 := mIsLogCommands s in
      set_tables
        (if needUpdate0 then update_table lbl duration (mOpBuffer s)
         else mOpBuffer s)
        (if needUpdate1 then update_table lbl duration (mOpBufferPerFrame s)
         else mOpBufferPerFrame s)
        s
    else s in
  writeCommand lvl lbl s1.

(** ** preFlush and postFlush *)

(** [value] is what property_get returns for debug.hwui.log.duration. *)
Definition preFlush (value : string) (s : DisplayListLogBuffer)
  : DisplayListLogBuffer :=
  if DEBUG_DISPLAY_LIST then
    let flag := String.eqb value "1" in
    set_mode flag (if flag then [] else mOpBufferPerFrame s) s
  else s.

(** postFlush calls outputCommandsInternal() without an argument; the default
    of the parameter, declared in DisplayListLogBuffer.h, is NULL: the spec
    has the per-frame report go to the log channel, with no file. *)
Definition postFlush (log : list string) (s : DisplayListLogBuffer)
  : DisplayListLogBuffer * (option string * list string) :=
  if DEBUG_DISPLAY_LIST then outputCommandsInternal None log s
  else (s, (None, log)).

(** ** The calls a host can make *)

Inductive call : Type :=
  | WriteCommand (lvl : Z) (lbl : ptr)
  | WriteCommandDuration (lvl : Z) (lbl : ptr) (duration : Z)
  | OutputCommands (fuel : nat) (file : option string)
  | PreFlush (value : string)
  | PostFlush.

Definition is_record (c : call) : bool :=
  match c with
  | WriteCommandDuration _ _ _ => true
  | _ => false
  end.

(** The object after a call; [None] when the call does not return. *)
Definition exec (c : call) (s : DisplayListLogBuffer)
  : option DisplayListLogBuffer :=
  match c with
  | WriteCommand lvl lbl => Some (writeCommand lvl lbl s)
  | WriteCommandDuration lvl lbl d => Some (writeCommand_duration lvl lbl d s)
  | OutputCommands fuel file =>
      match outputCommands fuel file [] s with
      | Done r => Some r.1
      | _ => None
      end
  | PreFlush value => Some (preFlush value s)
  | PostFlush => Some (postFlush [] s).1
  end.

(** A sequence of calls, from left to right. *)
Fixpoint run (cs : list call) (s : DisplayListLogBuffer)
  : option DisplayListLogBuffer :=
  match cs with
  | [] => Some s
  | c :: cs' => s' ← exec c s; run cs' s'
  end.

(** The entry a call writes to the ring, if it writes one. *)
Definition logged (c : call) : list OpLog :=
  match c with
  | WriteCommand lvl lbl => [mkOpLog lvl lbl]
  | WriteCommandDuration lvl lbl _ => [mkOpLog lvl lbl]
  | _ => []
  end.

(** ** Reading the ring *)

(** The state after a sequence of writeCommand(level, label) calls. *)
Definition write_all (ws : list OpLog) (s : DisplayListLogBuffer)
  : DisplayListLogBuffer :=
  fold_left (λ st e, writeCommand (level e) (label e) st) ws s.

(** The number of slots from [mStart] up to [mEnd], modulo the capacity. *)
Definition live_count (s : DisplayListLogBuffer) : nat :=
  (mEnd s + BUFFER_SIZE - mStart s) mod BUFFER_SIZE.

(** The slots from [from] up to but excluding [mEnd], modulo the capacity. *)
Definition slots_from (from : nat) (s : DisplayListLogBuffer)
  : list (option OpLog) :=
  (λ k, mBuffer s !! ((from + k) mod BUFFER_SIZE))
    <$> seq 0 ((mEnd s + BUFFER_SIZE - from) mod BUFFER_SIZE).

Definition live_entries (s : DisplayListLogBuffer) : list (option OpLog) :=
  slots_from (mStart s) s.

(** The position of the iteration cursor of outputCommands after [k] turns of
    its loop. *)
Fixpoint cursor_after (k : nat) (s : DisplayListLogBuffer) : nat :=
  match k with
  | O => mStart s
  | S k' => advance (cursor_after k' s)
  end.

(** The cursor invariant of the ring. *)
Definition cursors_valid (s : DisplayListLogBuffer) : Prop :=
  length (mBuffer s) = BUFFER_SIZE ∧ mStart s ≤ mBufferLast ∧ mEnd s ≤ mBufferLast.

(** States reached from the constructor by calls that return. *)
Inductive reachable : DisplayListLogBuffer → Prop :=
  | reach_construct uninit flag : reachable (construct uninit flag)
  | reach_call c s s' :
      reachable s → exec c s = Some s' → reachable s'.

(** The ring after the writes [ws], counted from the constructor: write
    number [i] went to slot [i mod BUFFER_SIZE], and the last [NUM_COMMANDS] of them
    have not been written over. *)
Definition ring_inv (ws : list OpLog) (s : DisplayListLogBuffer) : Prop :=
  length (mBuffer s) = BUFFER_SIZE
  ∧ mEnd s = length ws mod BUFFER_SIZE
  ∧ mStart s = (length ws - length ws `min` NUM_COMMANDS) mod BUFFER_SIZE
  ∧ ∀ i, length ws - length ws `min` NUM_COMMANDS ≤ i < length ws →
         mBuffer s !! (i mod BUFFER_SIZE) = ws !! i.

(** The last [n] elements of a list. *)
Definition last_n {A : Type} (n : nat) (l : list A) : list A :=
  drop (length l - n) l.

(** The text of a report on a stream: nothing for an empty table, else a
    blank line, the header and one row for each entry of [rows]. *)
Definition report_text (table : KeyedVector) (rows : list OpEntry) : string :=
  match table with
  | [] => ""
  | _ :: _ =>
      newline +:+ stat_header +:+ newline
      +:+ cat_lines ((λ e, stat_row e +:+ newline) <$> rows)
  end.

End Program.

(** ** Values for the examples *)

(** A static memory holding the labels "A" to "D" at the addresses 1 to 4. *)
Definition sample_memory (p : ptr) : string :=
  if (p =? 1)%N then "A"
  else if (p =? 2)%N then "B"
  else if (p =? 3)%N then "C"
  else if (p =? 4)%N then "D"
  else "".

(** A row that shows the name of the entry only. *)
Definition sample_row (e : OpEntry) : string := sample_memory (mName e).

(** A block as malloc may hand it out. *)
Definition sample_uninit (i : nat) : OpLog := mkOpLog (Z.of_nat i) 0%N.

(** The entries of the scenario on a ring of four slots. *)
Definition entry_A : OpLog := mkOpLog 0 1%N.
Definition entry_B : OpLog := mkOpLog 1 2%N.
Definition entry_C : OpLog := mkOpLog 0 3%N.
Definition entry_D : OpLog := mkOpLog 0 4%N.

(** A ring of four slots in timing mode after records of the labels "A"
    (30 ns), "B" (10 ns) and "C" (20 ns). *)
Definition sample_recorded : DisplayListLogBuffer :=
  writeCommand_duration 3 true 0 3%N 20
    (writeCommand_duration 3 true 1 2%N 10
       (writeCommand_duration 3 true 0 1%N 30
          (construct 3 sample_uninit true))).

(** A ring of four slots whose tables differ: "A" (30 ns) was recorded out of
    timing mode, then preFlush read "1" and "B" (10 ns) was recorded. The
    all-time table holds "A" and "B", the per-frame table "B" only. *)
Definition sample_frame : DisplayListLogBuffer :=
  writeCommand_duration 3 true 1 2%N 10
    (preFlush true "1"
       (writeCommand_duration 3 true 0 1%N 30
          (construct 3 sample_uninit false))).

(** The line of a ring entry as the format describes it: twice the level in
    spaces, the label, a newline. *)
Definition indented_line (cstring : ptr → string) (e : OpLog) : string :=
  spaces (Z.to_nat (2 * level e)) +:+ cstring (label e) +:+ newline.

(** ** Sequences of records *)

(** The label and duration a call records, if it records. *)
Definition recorded (c : call) : list (ptr * Z) :=
  match c with
  | WriteCommandDuration _ lbl duration => [(lbl, duration)]
  | _ => []
  end.

Definition is_preFlush (c : call) : bool :=
  match c with
  | PreFlush _ => true
  | _ => false
  end.

(** The table that the records [rs] build from an empty one. *)
Definition table_of (rs : list (ptr * Z)) : KeyedVector :=
  fold_left (λ table r, update_table r.1 r.2 table) rs [].

(** A duration that is not negative and fits [nsecs_t]. *)
Definition duration_ok (c : call) : Prop :=
  match c with
  | WriteCommandDuration _ _ duration => (0 ≤ duration ≤ INT64_MAX)%Z
  | _ => True
  end.

(** An entry of a table whose name is its key and whose durations are in
    order: last, maximum and total, none negative, none above INT64_MAX. *)
Definition stat_ok (kv : ptr * OpEntry) : Prop :=
  mName kv.2 = kv.1
  ∧ (0 ≤ mLastDuration kv.2 ≤ mMaxDuration kv.2)%Z
  ∧ (mMaxDuration kv.2 ≤ mTotalDuration kv.2 ≤ INT64_MAX)%Z.

(** Records of one label, each with its level and duration, with the tables
    compiled in. *)
Definition record_all (NUM_COMMANDS : nat) (lbl : ptr) (lds : list (Z * Z))
    (s : DisplayListLogBuffer) : DisplayListLogBuffer :=
  fold_left (λ st ld, writeCommand_duration NUM_COMMANDS true ld.1 lbl ld.2 st)
            lds s.

Definition sum_durations (ds : list Z) : Z := foldr Z.add 0%Z ds.
Definition max_duration (ds : list Z) : Z := foldr Z.max 0%Z ds.

(** * Properties *)

(** ** Arithmetic modulo the capacity *)

Lemma mod_wrap_once (x c : nat) : c ≤ x < 2 * c → x mod c = x - c.
Proof.
  intros H. replace x with ((x - c) + 1 * c) at 1 by lia.
  rewrite Nat.Div0.mod_add. apply Nat.mod_small. lia.
Qed.

Lemma mod_succ_cases (x c : nat) :
  0 < c → (x + 1) mod c = if x mod c =? c - 1 then 0 else S (x mod c).
Proof.
  intros Hc. rewrite <- Nat.Div0.add_mod_idemp_l.
  pose proof (Nat.mod_upper_bound x c ltac:(lia)) as Hr.
  destruct (Nat.eqb_spec (x mod c) (c - 1)) as [E|E].
  - rewrite E. replace (c - 1 + 1) with c by lia. apply Nat.Div0.mod_same.
  - rewrite Nat.mod_small; lia.
Qed.

Lemma mod_window_inj (i j c : nat) :
  i < j → j - i < c → i mod c ≠ j mod c.
Proof.
  intros Hij Hc E.
  pose proof (Nat.div_mod_eq i c) as Hi.
  pose proof (Nat.div_mod_eq j c) as Hj.
  rewrite E in Hi.
  assert (i / c < j / c ∨ j / c ≤ i / c) as [L|L] by lia; nia.
Qed.

Lemma mod_distance (N m c : nat) :
  m < c → m ≤ N → (N mod c + c - (N - m) mod c) mod c = m.
Proof.
  intros Hm HN.
  pose proof (Nat.mod_upper_bound (N - m) c ltac:(lia)) as Hr.
  replace N with ((N - m) + m) at 1 by lia.
  rewrite <- Nat.Div0.add_mod_idemp_l.
  set (r := (N - m) mod c) in *.
  destruct (decide (r + m < c)) as [S|S].
  - rewrite (Nat.mod_small (r + m)) by lia.
    rewrite mod_wrap_once by lia. lia.
  - rewrite (mod_wrap_once (r + m)) by lia.
    rewrite Nat.mod_small; lia.
Qed.

Lemma mod_distance_zero (e t c : nat) :
  e < c → t < c → (e + c - t) mod c = 0 → t = e.
Proof.
  intros He Ht H.
  destruct (decide (t ≤ e)).
  - rewrite mod_wrap_once in H; lia.
  - rewrite Nat.mod_small in H; lia.
Qed.

Lemma mod_distance_step (e t c : nat) :
  e < c → t < c → t ≠ e →
  (e + c - (t + 1) mod c) mod c + 1 = (e + c - t) mod c.
Proof.
  intros He Ht Hne.
  rewrite (mod_succ_cases t c) by lia.
  rewrite (Nat.mod_small t c) by lia.
  destruct (Nat.eqb_spec t (c - 1)) as [E|E].
  - rewrite Nat.sub_0_r. rewrite (mod_wrap_once (e + c)) by lia.
    rewrite Nat.mod_small; lia.
  - destruct (decide (t < e)).
    + rewrite !mod_wrap_once; lia.
    + rewrite !Nat.mod_small; lia.
Qed.

(** ** Strings *)

Lemma append_cons (x : ascii) (a b : string) :
  String x a +:+ b = String x (a +:+ b).
Proof. reflexivity. Qed.

Lemma append_assoc (a b c : string) : (a +:+ b) +:+ c = a +:+ (b +:+ c).
Proof.
  induction a as [|x a IH]; [done |].
  by rewrite !append_cons, IH.
Qed.

Lemma append_empty_r (a : string) : a +:+ "" = a.
Proof.
  induction a as [|x a IH]; [done |].
  by rewrite append_cons, IH.
Qed.

(** ** The ring *)

Section Ring.

Context (NUM_COMMANDS : nat) (cstring : ptr → string).

Local Abbreviation cap := (BUFFER_SIZE NUM_COMMANDS).
Local Abbreviation last := (mBufferLast NUM_COMMANDS).

Lemma cap_pos : 0 < cap.
Proof. unfold BUFFER_SIZE. lia. Qed.

Lemma last_eq : last = NUM_COMMANDS.
Proof. unfold mBufferLast, mBufferFirst, BUFFER_SIZE. lia. Qed.

Lemma advance_mod (t : nat) :
  t < cap → advance NUM_COMMANDS t = (t + 1) mod cap.
Proof.
  intros Ht. unfold advance. rewrite last_eq.
  rewrite (mod_succ_cases t cap) by apply cap_pos.
  rewrite (Nat.mod_small t cap) by done. unfold BUFFER_SIZE in *.
  destruct (Nat.ltb_spec NUM_COMMANDS (S t)), (Nat.eqb_spec t (NUM_COMMANDS + 1 - 1));
    unfold mBufferFirst; lia.
Qed.

Lemma ring_inv_construct uninit flag :
  ring_inv NUM_COMMANDS [] (construct NUM_COMMANDS uninit flag).
Proof.
  unfold ring_inv, construct; simpl. split_and!.
  - by rewrite length_fmap, length_seq.
  - by rewrite Nat.Div0.mod_0_l.
  - by rewrite Nat.Div0.mod_0_l.
  - intros i Hi. lia.
Qed.

Lemma ring_inv_write ws s lvl lbl :
  ring_inv NUM_COMMANDS ws s →
  ring_inv NUM_COMMANDS (ws ++ [mkOpLog lvl lbl]) (writeCommand NUM_COMMANDS lvl lbl s).
Proof.
  intros (Hlen & He & Hs & Hslots).
  pose proof cap_pos as Hcap.
  assert (Hcap' : cap = NUM_COMMANDS + 1) by done.
  set (N := length ws) in *.
  assert (HN : length (ws ++ [mkOpLog lvl lbl]) = N + 1)
    by (rewrite length_app; simpl; lia).
  assert (Hend : (if mEnd s =? last then mBufferFirst else S (mEnd s))
                 = (N + 1) mod cap).
  { rewrite He, last_eq, (mod_succ_cases N cap) by done.
    rewrite Hcap'. by replace (NUM_COMMANDS + 1 - 1) with NUM_COMMANDS by lia. }
  unfold ring_inv, writeCommand; simpl. rewrite HN, Hend, length_insert.
  split_and!; [done | done | |].
  - destruct (decide (N < NUM_COMMANDS)) as [Hlt|Hge].
    + rewrite Hs. replace (N - N `min` NUM_COMMANDS) with 0 by lia.
      replace (N + 1 - (N + 1) `min` NUM_COMMANDS) with 0 by lia.
      rewrite Nat.Div0.mod_0_l, (Nat.mod_small (N + 1)) by lia.
      by destruct (Nat.eqb_spec (N + 1) 0); [lia |].
    + assert (E : (N + 1) mod cap = mStart s).
      { rewrite Hs. replace (N `min` NUM_COMMANDS) with NUM_COMMANDS by lia.
        replace (N + 1) with ((N - NUM_COMMANDS) + 1 * cap) by lia.
        apply Nat.Div0.mod_add. }
      rewrite E, Nat.eqb_refl.
      pose proof (advance_mod (mStart s)) as Ha. unfold advance in Ha.
      rewrite Ha.
      * rewrite Hs, Nat.Div0.add_mod_idemp_l. f_equal. lia.
      * rewrite Hs. apply Nat.mod_upper_bound. lia.
  - intros i Hi.
    destruct (decide (i = N)) as [->|Hne].
    + rewrite He, list_lookup_insert_eq
        by (rewrite Hlen; apply Nat.mod_upper_bound; lia).
      by rewrite lookup_app_r, Nat.sub_diag by done.
    + rewrite list_lookup_insert_ne.
      * rewrite lookup_app_l by lia. apply Hslots. lia.
      * rewrite He. apply not_eq_sym, mod_window_inj; lia.
Qed.

Lemma ring_inv_cursors ws s : ring_inv NUM_COMMANDS ws s → cursors_valid NUM_COMMANDS s.
Proof.
  intros (Hlen & He & Hs & _). pose proof cap_pos.
  unfold cursors_valid. rewrite last_eq, Hlen, He, Hs.
  pose proof (Nat.mod_upper_bound (length ws) cap ltac:(lia)).
  pose proof (Nat.mod_upper_bound (length ws - length ws `min` NUM_COMMANDS) cap
                ltac:(lia)).
  unfold BUFFER_SIZE in *. lia.
Qed.

Lemma ring_inv_live_count ws s :
  ring_inv NUM_COMMANDS ws s → live_count NUM_COMMANDS s = length ws `min` NUM_COMMANDS.
Proof.
  intros (Hlen & He & Hs & _). unfold live_count. rewrite He, Hs.
  apply mod_distance; unfold BUFFER_SIZE; lia.
Qed.

(** The live slots are the last [NUM_COMMANDS] writes, oldest first. *)
Lemma ring_inv_live ws s :
  ring_inv NUM_COMMANDS ws s → live_entries NUM_COMMANDS s = Some <$> last_n NUM_COMMANDS ws.
Proof.
  intros Hinv. pose proof (ring_inv_live_count _ _ Hinv) as Hcount.
  destruct Hinv as (Hlen & He & Hs & Hslots).
  unfold live_entries, slots_from. fold (live_count NUM_COMMANDS s).
  rewrite Hcount. unfold last_n.
  apply list_eq. intros k.
  rewrite !list_lookup_fmap, lookup_drop.
  destruct (decide (k < length ws `min` NUM_COMMANDS)) as [Hk|Hk].
  - rewrite lookup_seq_lt by done. simpl.
    rewrite Hs, Nat.Div0.add_mod_idemp_l, Hslots by lia.
    replace (length ws - NUM_COMMANDS + k)
      with (length ws - length ws `min` NUM_COMMANDS + k) by lia.
    destruct (lookup_lt_is_Some_2 ws (length ws - length ws `min` NUM_COMMANDS + k))
      as [x Hx]; [lia |]. by rewrite Hx.
  - rewrite lookup_seq_ge by lia. simpl.
    by rewrite lookup_ge_None_2 by lia.
Qed.

End Ring.

(** ** Calls other than the writes leave the ring alone *)

Section Calls.

Context (NUM_COMMANDS : nat) (DEBUG_DISPLAY_LIST : bool)
        (cstring : ptr → string) (stat_row : OpEntry → string).

Lemma outputCommandsInternal_state file log s :
  (outputCommandsInternal stat_row file log s).1 = s.
Proof.
  unfold outputCommandsInternal.
  destruct (mIsLogCommands s || bool_decide (is_Some file)); [|done].
  by destruct (length _ =? 0).
Qed.

Lemma outputCommands_state fuel file log s r :
  outputCommands NUM_COMMANDS cstring stat_row fuel file log s = Done r →
  r.1 = s.
Proof.
  unfold outputCommands.
  destruct (outputCommands_loop _ _ _ _ _ _); [|done..].
  intros [= <-]. apply outputCommandsInternal_state.
Qed.

Lemma writeCommand_duration_ring lvl lbl d s :
  let s' := writeCommand_duration NUM_COMMANDS DEBUG_DISPLAY_LIST lvl lbl d s in
  let w := writeCommand NUM_COMMANDS lvl lbl s in
  mBuffer s' = mBuffer w ∧ mStart s' = mStart w ∧ mEnd s' = mEnd w.
Proof. unfold writeCommand_duration. by destruct DEBUG_DISPLAY_LIST. Qed.

Lemma preFlush_ring value s :
  let s' := preFlush DEBUG_DISPLAY_LIST value s in
  mBuffer s' = mBuffer s ∧ mStart s' = mStart s ∧ mEnd s' = mEnd s.
Proof. unfold preFlush. by destruct DEBUG_DISPLAY_LIST. Qed.

Lemma postFlush_state log s :
  (postFlush DEBUG_DISPLAY_LIST stat_row log s).1 = s.
Proof.
  unfold postFlush. destruct DEBUG_DISPLAY_LIST; [|done].
  apply outputCommandsInternal_state.
Qed.

Lemma ring_inv_ext ws s s' :
  mBuffer s' = mBuffer s → mStart s' = mStart s → mEnd s' = mEnd s →
  ring_inv NUM_COMMANDS ws s → ring_inv NUM_COMMANDS ws s'.
Proof. unfold ring_inv. by intros -> -> ->. Qed.

Lemma exec_ring_inv c ws s s' :
  ring_inv NUM_COMMANDS ws s →
  exec NUM_COMMANDS DEBUG_DISPLAY_LIST cstring stat_row c s = Some s' →
  ring_inv NUM_COMMANDS (ws ++ logged c) s'.
Proof.
  intros Hinv Hexec. destruct c as [lvl lbl|lvl lbl d|fuel file|value|]; simpl in *.
  - injection Hexec as <-. by apply ring_inv_write.
  - injection Hexec as <-.
    destruct (writeCommand_duration_ring lvl lbl d s) as (Hb & Hs & He).
    eapply ring_inv_ext; [exact Hb | exact Hs | exact He |].
    by apply ring_inv_write.
  - rewrite app_nil_r.
    destruct (outputCommands _ _ _ _ _ _ _) as [r| |] eqn:E; [|done..].
    injection Hexec as <-. by rewrite (outputCommands_state _ _ _ _ _ E).
  - injection Hexec as <-. rewrite app_nil_r.
    destruct (preFlush_ring value s) as (Hb & Hs & He).
    by eapply ring_inv_ext.
  - injection Hexec as <-. by rewrite app_nil_r, postFlush_state.
Qed.

Lemma run_ring_inv cs ws s s' :
  ring_inv NUM_COMMANDS ws s →
  run NUM_COMMANDS DEBUG_DISPLAY_LIST cstring stat_row cs s = Some s' →
  ring_inv NUM_COMMANDS (ws ++ (cs ≫= logged)) s'.
Proof.
  revert ws s. induction cs as [|c cs IH]; intros ws s Hinv Hrun; simpl in *.
  - injection Hrun as <-. by rewrite app_nil_r.
  - destruct (exec _ _ _ _ c s) as [s1|] eqn:E; [|done]. simpl in Hrun.
    rewrite app_assoc. eapply IH; [|exact Hrun].
    by eapply exec_ring_inv.
Qed.

Lemma reachable_ring_inv s :
  reachable NUM_COMMANDS DEBUG_DISPLAY_LIST cstring stat_row s →
  ∃ ws, ring_inv NUM_COMMANDS ws s.
Proof.
  induction 1 as [uninit flag|c s s' _ [ws IH] Hexec].
  - exists []. apply ring_inv_construct.
  - exists (ws ++ logged c). by eapply exec_ring_inv.
Qed.

Lemma run_reachable cs s s' :
  reachable NUM_COMMANDS DEBUG_DISPLAY_LIST cstring stat_row s →
  run NUM_COMMANDS DEBUG_DISPLAY_LIST cstring stat_row cs s = Some s' →
  reachable NUM_COMMANDS DEBUG_DISPLAY_LIST cstring stat_row s'.
Proof.
  revert s. induction cs as [|c cs IH]; intros s Hr Hrun; simpl in *.
  - by injection Hrun as <-.
  - destruct (exec _ _ _ _ c s) as [s1|] eqn:E; [|done]. simpl in Hrun.
    eapply IH; [|exact Hrun]. by eapply reach_call.
Qed.

Lemma write_all_ring_inv es ws s :
  ring_inv NUM_COMMANDS ws s →
  ring_inv NUM_COMMANDS (ws ++ es) (write_all NUM_COMMANDS es s).
Proof.
  revert ws s. induction es as [|[lvl lbl] es IH]; intros ws s Hinv; simpl.
  - by rewrite app_nil_r.
  - replace (ws ++ mkOpLog lvl lbl :: es) with ((ws ++ [mkOpLog lvl lbl]) ++ es)
      by (by rewrite <- app_assoc).
    apply IH. by apply ring_inv_write.
Qed.

End Calls.

(** ** The loop of outputCommands *)

Section Dump.

Context (NUM_COMMANDS : nat) (cstring : ptr → string).

Local Abbreviation cap := (BUFFER_SIZE NUM_COMMANDS).

Lemma slots_from_step t s x :
  t < cap → mEnd s < cap → t ≠ mEnd s → mBuffer s !! t = Some x →
  slots_from NUM_COMMANDS t s
  = Some x :: slots_from NUM_COMMANDS (advance NUM_COMMANDS t) s.
Proof.
  intros Ht He Hne Hx. unfold slots_from.
  rewrite advance_mod by done.
  rewrite <- (mod_distance_step (mEnd s) t cap) by done.
  rewrite Nat.add_1_r. simpl.
  rewrite Nat.add_0_r, (Nat.mod_small t) by done. rewrite Hx. f_equal.
  rewrite <- fmap_S_seq, <- list_fmap_compose.
  apply list_fmap_ext. intros _ k _. simpl.
  rewrite Nat.Div0.add_mod_idemp_l. do 2 f_equal. lia.
Qed.

(** From a cursor inside the block the loop visits the slots up to [mEnd],
    prints their lines in that order and stops; it needs one test of the
    cursor more than there are slots to print. *)
Lemma outputCommands_loop_run s :
  length (mBuffer s) = cap → mEnd s < cap →
  ∀ d t, t < cap → (mEnd s + cap - t) mod cap = d →
  ∃ es, slots_from NUM_COMMANDS t s = Some <$> es ∧ length es = d ∧
    ∀ fuel content,
      outputCommands_loop NUM_COMMANDS cstring fuel s t (Some content)
      = if decide (d < fuel)
        then Done (Some (content +:+ cat_lines (op_line cstring <$> es)))
        else OutOfFuel.
Proof.
  intros Hlen He. induction d as [|d IH]; intros t Ht Hd.
  - apply mod_distance_zero in Hd; [|done..]. subst t.
    exists []. split_and!; [|done|].
    + unfold slots_from. replace (mEnd s + cap - mEnd s) with cap by lia.
      by rewrite Nat.Div0.mod_same.
    + intros [|fuel] content; simpl; [done |].
      by rewrite Nat.eqb_refl, append_empty_r.
  - assert (Hne : t ≠ mEnd s).
    { intros ->. replace (mEnd s + cap - mEnd s) with cap in Hd by lia.
      by rewrite Nat.Div0.mod_same in Hd. }
    destruct (lookup_lt_is_Some_2 (mBuffer s) t) as [x Hx]; [lia |].
    assert (Ha : advance NUM_COMMANDS t < cap).
    { rewrite advance_mod by done. apply Nat.mod_upper_bound. lia. }
    destruct (IH (advance NUM_COMMANDS t) Ha) as (es & Hes & Hl & Hrun).
    { pose proof (mod_distance_step (mEnd s) t cap He Ht Hne).
      rewrite advance_mod by done. lia. }
    exists (x :: es). split_and!.
    + by rewrite (slots_from_step t s x), Hes.
    + simpl. by rewrite Hl.
    + intros [|fuel] content; simpl; [done |].
      destruct (Nat.eqb_spec t (mEnd s)); [done |].
      rewrite Hx, Hrun.
      destruct (decide (d < fuel)), (decide (S d < S fuel)); try lia; [|done].
      by rewrite append_assoc.
Qed.

Lemma cursor_after_mod k s :
  mStart s < cap → cursor_after NUM_COMMANDS k s = (mStart s + k) mod cap.
Proof.
  intros Hs. induction k as [|k IH]; simpl.
  - by rewrite Nat.add_0_r, Nat.mod_small.
  - rewrite IH, advance_mod by (apply Nat.mod_upper_bound; lia).
    rewrite Nat.Div0.add_mod_idemp_l. f_equal. lia.
Qed.

Lemma live_count_reaches s :
  mStart s < cap → mEnd s < cap →
  (mStart s + live_count NUM_COMMANDS s) mod cap = mEnd s.
Proof.
  intros Hs He. unfold live_count.
  rewrite Nat.Div0.add_mod_idemp_r.
  replace (mStart s + (mEnd s + cap - mStart s)) with (mEnd s + 1 * cap) by lia.
  rewrite Nat.Div0.mod_add. by apply Nat.mod_small.
Qed.

Lemma cursors_valid_lt s :
  cursors_valid NUM_COMMANDS s →
  length (mBuffer s) = cap ∧ mStart s < cap ∧ mEnd s < cap.
Proof.
  unfold cursors_valid. rewrite last_eq. unfold BUFFER_SIZE. lia.
Qed.

End Dump.

(** ** The report *)

Section Report.

Context (stat_row : OpEntry → string).

Lemma find_index_shift entry lst j :
  find_index entry lst j = j + find_index entry lst 0.
Proof.
  revert j. induction lst as [|e lst IH]; intros j; simpl; [lia |].
  destruct (mTotalDuration e <? mTotalDuration entry)%Z; [lia |].
  rewrite (IH (S j)), (IH 1). lia.
Qed.

Lemma insert_entry_cons e lst entry :
  insert_entry (e :: lst) entry
  = if (mTotalDuration e <? mTotalDuration entry)%Z then entry :: e :: lst
    else e :: insert_entry lst entry.
Proof.
  unfold insert_entry, insertAt. simpl.
  destruct (mTotalDuration e <? mTotalDuration entry)%Z; [done |].
  by rewrite find_index_shift.
Qed.

Lemma insert_entry_perm lst entry : insert_entry lst entry ≡ₚ entry :: lst.
Proof.
  unfold insert_entry, insertAt.
  rewrite <- Permutation_middle. by rewrite take_drop.
Qed.

Lemma insert_entry_descending lst entry :
  descending lst → descending (insert_entry lst entry).
Proof.
  unfold descending. induction lst as [|e lst IH]; intros Hs.
  - repeat constructor.
  - rewrite insert_entry_cons. apply StronglySorted_inv in Hs as [Hs Hall].
    destruct (Z.ltb_spec (mTotalDuration e) (mTotalDuration entry)) as [Hlt|Hge].
    + constructor; [by constructor |].
      constructor; [lia |].
      eapply Forall_impl; [exact Hall |]. simpl. intros; lia.
    + constructor; [by apply IH |].
      rewrite insert_entry_perm. by constructor.
Qed.

Lemma fold_insert_perm rest acc :
  fold_left insert_entry rest acc ≡ₚ acc ++ rest.
Proof.
  revert acc. induction rest as [|x rest IH]; intros acc; simpl.
  - by rewrite app_nil_r.
  - rewrite IH, insert_entry_perm. simpl. apply Permutation_middle.
Qed.

Lemma fold_insert_descending rest acc :
  descending acc → descending (fold_left insert_entry rest acc).
Proof.
  revert acc. induction rest as [|x rest IH]; intros acc Hacc; simpl; [done |].
  by apply IH, insert_entry_descending.
Qed.

Lemma sorted_list_perm ops : sorted_list ops ≡ₚ ops.*2.
Proof.
  destruct ops as [|kv0 rest]; [done |]. simpl.
  by rewrite fold_insert_perm.
Qed.

Lemma sorted_list_descending ops : descending (sorted_list ops).
Proof.
  destruct ops as [|kv0 rest]; simpl.
  - constructor.
  - apply fold_insert_descending. repeat constructor.
Qed.

Lemma sorted_list_length ops : length (sorted_list ops) = length ops.
Proof. by rewrite sorted_list_perm, length_fmap. Qed.

Lemma emit_rows_file rows content log :
  fold_left (λ o entry, emit o.1 o.2 (stat_row entry)) rows (Some content, log)
  = (Some (content +:+ cat_lines ((λ e, stat_row e +:+ newline) <$> rows)), log).
Proof.
  revert content. induction rows as [|e rows IH]; intros content; simpl.
  - by rewrite append_empty_r.
  - rewrite IH. by rewrite !append_assoc.
Qed.

Lemma emit_rows_log rows log :
  fold_left (λ o entry, emit o.1 o.2 (stat_row entry)) rows (None, log)
  = (None, log ++ (stat_row <$> rows)).
Proof.
  revert log. induction rows as [|e rows IH]; intros log; simpl.
  - by rewrite app_nil_r.
  - rewrite IH. by rewrite <- app_assoc.
Qed.

(** On a stream the report is written for the all-time table, whatever the
    mode and the per-frame table are. *)
Lemma outputCommandsInternal_file content log s :
  outputCommandsInternal stat_row (Some content) log s
  = (s, (Some (content
               +:+ report_text stat_row (mOpBuffer s) (sorted_list (mOpBuffer s))),
         log)).
Proof.
  unfold outputCommandsInternal.
  replace (mIsLogCommands s || bool_decide (is_Some (Some content))) with true
    by (by destruct (mIsLogCommands s)).
  pose proof (sorted_list_length (mOpBuffer s)) as Hlen.
  destruct (mOpBuffer s) as [|kv0 rest] eqn:E.
  - simpl. by rewrite append_empty_r.
  - cbn [length Nat.eqb report_text] in *.
    rewrite take_ge by lia. rewrite emit_rows_file.
    by rewrite !append_assoc.
Qed.

(** Without a stream the report goes to the log, for the per-frame table and
    only in timing mode. *)
Lemma outputCommandsInternal_log log s :
  outputCommandsInternal stat_row None log s
  = (s, (None,
         if mIsLogCommands s then
           match mOpBufferPerFrame s with
           | [] => log
           | _ :: _ =>
               log ++ stat_header :: (stat_row <$> sorted_list (mOpBufferPerFrame s))
           end
         else log)).
Proof.
  unfold outputCommandsInternal.
  destruct (mIsLogCommands s); simpl; [|done].
  pose proof (sorted_list_length (mOpBufferPerFrame s)) as Hlen.
  destruct (mOpBufferPerFrame s) as [|kv0 rest] eqn:E; [done |].
  cbn [length Nat.eqb] in *.
  rewrite take_ge by lia. rewrite emit_rows_log.
  by rewrite <- app_assoc.
Qed.

End Report.

(** ** Machine integers in range *)

Lemma int32_in_range (x : Z) : is_int32 x → int32 x = x.
Proof.
  unfold is_int32, INT_MAX, int32, wrap. intros H.
  change (2 ^ (32 - 1))%Z with (2 ^ 31)%Z.
  rewrite Z.mod_small; lia.
Qed.

Lemma int64_in_range (x : Z) : is_int64 x → int64 x = x.
Proof.
  unfold is_int64, INT64_MIN, INT64_MAX, int64, wrap. intros H.
  change (2 ^ (64 - 1))%Z with (2 ^ 63)%Z.
  rewrite Z.mod_small; lia.
Qed.

(** ** The duration tables *)

Lemma valueFor_cons key k x rest :
  valueFor key ((k, x) :: rest)
  = if (k =? key)%N then Some x else valueFor key rest.
Proof.
  unfold valueFor, valueAt. simpl.
  destruct (k =? key)%N; [done |].
  by destruct (indexOfKey key rest).
Qed.

Lemma valueFor_add key key' value v :
  valueFor key' (add key value v)
  = if (key =? key')%N then Some value else valueFor key' v.
Proof.
  induction v as [|[k x] rest IH]; simpl.
  - rewrite valueFor_cons. by destruct (key =? key')%N.
  - destruct (N.ltb_spec key k) as [Hlt|Hge].
    { by rewrite valueFor_cons. }
    destruct (N.eqb_spec k key) as [->|Hne].
    { rewrite !valueFor_cons. by destruct (N.eqb_spec key key'). }
    rewrite !valueFor_cons, IH.
    destruct (N.eqb_spec k key'), (N.eqb_spec key key'); congruence.
Qed.

Lemma valueFor_editValueAt key key' index f v :
  indexOfKey key v = Some index →
  valueFor key' (editValueAt index f v)
  = if (key =? key')%N then f <$> valueFor key' v else valueFor key' v.
Proof.
  revert index. induction v as [|[k x] rest IH]; intros index; simpl; [done |].
  destruct (N.eqb_spec k key) as [->|Hne].
  - intros [= <-]. unfold editValueAt. simpl.
    rewrite !valueFor_cons. by destruct (key =? key')%N.
  - destruct (indexOfKey key rest) as [i|] eqn:E; [|done].
    intros [= <-]. unfold editValueAt in *. simpl.
    rewrite !valueFor_cons, (IH i) by done.
    destruct (N.eqb_spec k key'), (N.eqb_spec key key'); congruence.
Qed.

Lemma valueFor_None key v : valueFor key v = None ↔ indexOfKey key v = None.
Proof.
  induction v as [|[k x] rest IH]; [done |].
  rewrite valueFor_cons. simpl.
  destruct (k =? key)%N; [done |].
  rewrite IH. by destruct (indexOfKey key rest).
Qed.

(** What recording does to a table: the entry of the label is created or
    updated, every other entry is as before. *)
Lemma valueFor_update_table lbl key' duration buffer :
  valueFor key' (update_table lbl duration buffer)
  = if (lbl =? key')%N then
      Some (match valueFor lbl buffer with
            | Some item => update_item duration item
            | None => OpEntry_new lbl 1 duration
            end)
    else valueFor key' buffer.
Proof.
  unfold update_table.
  destruct (indexOfKey lbl buffer) as [i|] eqn:E.
  - rewrite (valueFor_editValueAt lbl) by done.
    destruct (N.eqb_spec lbl key') as [<-|]; [|done].
    destruct (valueFor lbl buffer) eqn:V; [done |].
    apply valueFor_None in V. congruence.
  - rewrite valueFor_add. apply valueFor_None in E. by rewrite E.
Qed.

Lemma add_head key value v :
  ∃ k x rest, add key value v = (k, x) :: rest
    ∧ (k = key ∨ ∃ x0 rest0, v = (k, x0) :: rest0).
Proof.
  destruct v as [|[k x] rest]; simpl.
  - exists key, value, []. split; [done | by left].
  - destruct (key <? k)%N.
    { exists key, value, ((k, x) :: rest). split; [done | by left]. }
    destruct (k =? key)%N.
    { exists key, value, rest. split; [done | by left]. }
    exists k, x, (add key value rest). split; [done | right; eauto].
Qed.

(** The tables stay in strictly increasing key order. *)
Lemma add_sorted_keys key value v : sorted_keys v → sorted_keys (add key value v).
Proof.
  induction v as [|[k x] rest IH]; [done |].
  intros [Hhd Htl]. cbn [add].
  destruct (N.ltb_spec key k) as [Hlt|Hge]; [done |].
  destruct (N.eqb_spec k key) as [->|Hne]; [done |].
  split; [|by apply IH].
  destruct (add_head key value rest)
    as (k1 & x1 & rest1 & -> & [->|(x0 & rest0 & ->)]); [lia | done].
Qed.

Lemma editValueAt_sorted_keys index f v :
  sorted_keys v → sorted_keys (editValueAt index f v).
Proof.
  unfold editValueAt. revert index.
  induction v as [|[k x] rest IH]; intros index; [done |].
  intros [Hhd Htl]. destruct index as [|i]; simpl; [done |].
  split; [|by apply IH].
  destruct rest as [|[k0 x0] rest0]; [done |]. by destruct i.
Qed.

Lemma update_table_sorted_keys lbl duration buffer :
  sorted_keys buffer → sorted_keys (update_table lbl duration buffer).
Proof.
  unfold update_table. destruct (indexOfKey lbl buffer).
  - apply editValueAt_sorted_keys.
  - apply add_sorted_keys.
Qed.

Lemma update_item_in_range duration item :
  is_int64 (mTotalDuration item) → (0 ≤ duration ≤ INT64_MAX)%Z →
  (- 2 ^ 31 ≤ mCount item < INT_MAX)%Z →
  update_item duration item
  = if (mTotalDuration item + duration <? INT64_MAX)%Z
    then accumulated duration item else started_over duration item.
Proof.
  intros Ht Hd Hc. unfold update_item.
  rewrite (int64_in_range (INT64_MAX - duration))
    by (unfold is_int64, INT64_MIN, INT64_MAX in *; lia).
  destruct (Z.ltb_spec (mTotalDuration item) (INT64_MAX - duration)),
           (Z.ltb_spec (mTotalDuration item + duration) INT64_MAX); try lia.
  - unfold accumulated. simpl.
    rewrite int32_in_range by (unfold is_int32, INT_MAX in *; lia).
    rewrite int64_in_range
      by (unfold is_int64, INT64_MIN, INT64_MAX in *; lia).
    f_equal. destruct (Z.ltb_spec (mMaxDuration item) duration); lia.
  - done.
Qed.

(** ** The tables of a reachable state are in key order *)

Section TablesOrder.

Context (NUM_COMMANDS : nat) (DEBUG_DISPLAY_LIST : bool)
        (cstring : ptr → string) (stat_row : OpEntry → string).

Lemma exec_tables_sorted c s s' :
  tables_sorted s →
  exec NUM_COMMANDS DEBUG_DISPLAY_LIST cstring stat_row c s = Some s' →
  tables_sorted s'.
Proof.
  intros [Hall Hper] Hexec.
  destruct c as [lvl lbl|lvl lbl d|fuel file|value|]; simpl in *.
  - by injection Hexec as <-.
  - injection Hexec as <-. unfold writeCommand_duration, tables_sorted.
    destruct DEBUG_DISPLAY_LIST; simpl; [|done].
    split; [by apply update_table_sorted_keys |].
    destruct (mIsLogCommands s); [by apply update_table_sorted_keys | done].
  - destruct (outputCommands _ _ _ _ _ _ _) as [r| |] eqn:E; [|done..].
    injection Hexec as <-. by rewrite (outputCommands_state _ _ _ _ _ _ _ _ E).
  - injection Hexec as <-. unfold preFlush, tables_sorted.
    destruct DEBUG_DISPLAY_LIST; simpl; [|done].
    split; [done |]. by destruct (String.eqb value "1").
  - injection Hexec as <-. by rewrite postFlush_state.
Qed.

Lemma reachable_tables_sorted s :
  reachable NUM_COMMANDS DEBUG_DISPLAY_LIST cstring stat_row s → tables_sorted s.
Proof.
  induction 1 as [uninit flag|c s s' _ IH Hexec]; [done |].
  by eapply exec_tables_sorted.
Qed.

End TablesOrder.

Lemma op_line_nesting cstring e :
  (0 ≤ level e ≤ 2 ^ 30 - 1)%Z → op_line cstring e = indented_line cstring e.
Proof.
  intros H. unfold op_line, indented_line, printf_star_s.
  rewrite int32_in_range by (unfold is_int32, INT_MAX; lia).
  destruct (Z.ltb_spec (2 * level e) 0); [lia |].
  simpl String.length.
  by rewrite Nat.sub_0_r, append_empty_r.
Qed.

(** ** Dumps *)

Section Output.

Context (NUM_COMMANDS : nat) (DEBUG_DISPLAY_LIST : bool)
        (cstring : ptr → string) (stat_row : OpEntry → string).

Local Abbreviation cap := (BUFFER_SIZE NUM_COMMANDS).

(** With a stream and valid cursors, outputCommands returns as soon as it may
    test the cursor once more than there are live entries: it has then
    appended their lines and the report of the all-time table, and nothing
    else has changed. With fewer tests it has not come to its end. *)
Lemma outputCommands_dump s content log fuel es :
  cursors_valid NUM_COMMANDS s →
  live_entries NUM_COMMANDS s = Some <$> es →
  outputCommands NUM_COMMANDS cstring stat_row fuel (Some content) log s
  = if decide (length es < fuel) then
      Done (s, (Some ((content +:+ cat_lines (op_line cstring <$> es))
                      +:+ report_text stat_row (mOpBuffer s)
                            (sorted_list (mOpBuffer s))),
                log))
    else OutOfFuel.
Proof.
  intros Hv Hlive. apply cursors_valid_lt in Hv as (Hlen & Hs & He).
  destruct (outputCommands_loop_run NUM_COMMANDS cstring s Hlen He
              _ (mStart s) Hs eq_refl) as (es' & Hes & Hl & Hrun).
  unfold live_entries in Hlive. rewrite Hlive in Hes.
  apply (inj (fmap Some)) in Hes. subst es'.
  unfold outputCommands. rewrite Hrun, <- Hl.
  destruct (decide (length es < fuel)); [|done].
  by rewrite outputCommandsInternal_file.
Qed.

Lemma cursors_valid_live_Some s :
  cursors_valid NUM_COMMANDS s →
  ∃ es, live_entries NUM_COMMANDS s = Some <$> es
        ∧ length es = live_count NUM_COMMANDS s.
Proof.
  intros Hv. apply cursors_valid_lt in Hv as (Hlen & Hs & He).
  destruct (outputCommands_loop_run NUM_COMMANDS cstring s Hlen He
              _ (mStart s) Hs eq_refl) as (es & Hes & Hl & _).
  by exists es.
Qed.

Lemma write_all_tables ws s :
  let s' := write_all NUM_COMMANDS ws s in
  mOpBuffer s' = mOpBuffer s ∧ mOpBufferPerFrame s' = mOpBufferPerFrame s
  ∧ mIsLogCommands s' = mIsLogCommands s.
Proof.
  revert s. induction ws as [|e ws IH]; intros s; simpl; [done |].
  destruct (IH (writeCommand NUM_COMMANDS (level e) (label e) s)) as (-> & -> & ->).
  done.
Qed.

Lemma last_n_all {A} n (l : list A) : length l ≤ n → last_n n l = l.
Proof.
  intros H. unfold last_n. by replace (length l - n) with 0 by lia.
Qed.

Lemma last_n_length {A} n (l : list A) : length (last_n n l) = length l `min` n.
Proof. unfold last_n. rewrite length_drop. lia. Qed.

(** The dump after writes from the constructor, with no record made. *)
Lemma dump_after_writes uninit flag ws content log fuel :
  cap ≤ fuel →
  let s := write_all NUM_COMMANDS ws (construct NUM_COMMANDS uninit flag) in
  outputCommands NUM_COMMANDS cstring stat_row fuel (Some content) log s
  = Done (s, (Some (content
                    +:+ cat_lines (op_line cstring <$> last_n NUM_COMMANDS ws)),
              log)).
Proof.
  intros Hfuel s.
  pose proof (write_all_ring_inv NUM_COMMANDS ws [] _
                (ring_inv_construct NUM_COMMANDS uninit flag)) as Hinv.
  simpl in Hinv. fold s in Hinv.
  rewrite (outputCommands_dump s content log fuel (last_n NUM_COMMANDS ws));
    [| by eapply ring_inv_cursors | by apply ring_inv_live].
  rewrite last_n_length.
  destruct (decide (length ws `min` NUM_COMMANDS < fuel)) as [_|Hn];
    [| unfold BUFFER_SIZE in *; lia].
  destruct (write_all_tables ws (construct NUM_COMMANDS uninit flag)) as (Ht & _).
  fold s in Ht. rewrite Ht. simpl. by rewrite append_empty_r.
Qed.

End Output.

(** ** What a record does to the two tables *)

Section Record.

Context (NUM_COMMANDS : nat).

Lemma record_tables_debug lvl lbl duration s :
  let s' := writeCommand_duration NUM_COMMANDS true lvl lbl duration s in
  mOpBuffer s' = update_table lbl duration (mOpBuffer s)
  ∧ mOpBufferPerFrame s'
    = (if mIsLogCommands s then update_table lbl duration (mOpBufferPerFrame s)
       else mOpBufferPerFrame s)
  ∧ mIsLogCommands s' = mIsLogCommands s.
Proof. done. Qed.

Lemma record_tables_nodebug lvl lbl duration s :
  let s' := writeCommand_duration NUM_COMMANDS false lvl lbl duration s in
  mOpBuffer s' = mOpBuffer s
  ∧ mOpBufferPerFrame s' = mOpBufferPerFrame s
  ∧ mIsLogCommands s' = mIsLogCommands s.
Proof. done. Qed.

(** Recording twice a label that a table does not hold. *)
Lemma update_table_twice lbl d1 d2 buffer :
  is_int64 d1 → is_int64 d2 → (0 ≤ d2)%Z → (d1 + d2 < INT64_MAX)%Z →
  valueFor lbl buffer = None →
  valueFor lbl (update_table lbl d1 buffer) = Some (mkOpEntry lbl 1 d1 d1 d1)
  ∧ valueFor lbl (update_table lbl d2 (update_table lbl d1 buffer))
    = Some (mkOpEntry lbl 2 (d1 `max` d2) (d1 + d2) d2).
Proof.
  intros H1 H2' H2 Hsum Habs.
  assert (E1 : valueFor lbl (update_table lbl d1 buffer)
               = Some (mkOpEntry lbl 1 d1 d1 d1)).
  { by rewrite valueFor_update_table, N.eqb_refl, Habs. }
  split; [done |].
  rewrite valueFor_update_table, N.eqb_refl, E1.
  rewrite update_item_in_range; cbn [mTotalDuration mCount].
  - destruct (Z.ltb_spec (d1 + d2) INT64_MAX); [done | lia].
  - done.
  - unfold is_int64, INT64_MIN, INT64_MAX in *. lia.
  - unfold INT_MAX. lia.
Qed.

End Record.

(** * The claims *)

Section Claims.

Context (NUM_COMMANDS : nat) (DEBUG_DISPLAY_LIST : bool)
        (cstring : ptr → string) (stat_row : OpEntry → string).

Local Abbreviation cap := (BUFFER_SIZE NUM_COMMANDS).

(** C1. From a freshly constructed ring, after any sequence [ws] of
    writeCommand(level, label) calls with nesting levels from 0 whose double
    fits an [int], outputCommands on a stream returns and has appended to it
    one line for each entry it kept, each made of [2 * level] spaces, the
    label and a newline, in write order: the lines of all of [ws] when there
    are at most [capacity - 1] of them, and otherwise the lines of the most
    recent [capacity - 1] only, the [length ws - (capacity - 1)] older
    entries being dropped. *)
Theorem writes_then_dump uninit flag ws content log fuel :
  Forall (λ e, (0 ≤ level e ≤ 2 ^ 30 - 1)%Z) ws →
  cap ≤ fuel →
  let s := write_all NUM_COMMANDS ws (construct NUM_COMMANDS uninit flag) in
  (length ws ≤ cap - 1 →
   outputCommands NUM_COMMANDS cstring stat_row fuel (Some content) log s
   = Done (s, (Some (content +:+ cat_lines (indented_line cstring <$> ws)),
               log)))
  ∧ (cap - 1 < length ws →
     let kept := drop (length ws - (cap - 1)) ws in
     length kept = cap - 1
     ∧ outputCommands NUM_COMMANDS cstring stat_row fuel (Some content) log s
       = Done (s, (Some (content +:+ cat_lines (indented_line cstring <$> kept)),
                   log))).
Proof.
  intros Hlv Hfuel s.
  replace (cap - 1) with NUM_COMMANDS by (unfold BUFFER_SIZE; lia).
  assert (Hdump :
    outputCommands NUM_COMMANDS cstring stat_row fuel (Some content) log s
    = Done (s, (Some (content
                      +:+ cat_lines (indented_line cstring
                                       <$> last_n NUM_COMMANDS ws)),
                log))).
  { unfold s. rewrite (dump_after_writes NUM_COMMANDS) by done.
    assert (E : op_line cstring <$> last_n NUM_COMMANDS ws
                = indented_line cstring <$> last_n NUM_COMMANDS ws);
      [| by rewrite E].
    apply Forall_fmap_ext_1. unfold last_n.
    eapply Forall_impl; [by apply Forall_drop |].
    intros e He. by apply op_line_nesting. }
  split.
  - intros Hshort. by rewrite Hdump, last_n_all.
  - intros Hlong kept. split; [| exact Hdump].
    unfold kept. rewrite length_drop. lia.
Qed.

(** C2. A freshly constructed ring is empty, with both cursors equal. In every
    state reached from it by calls, both cursors are offsets of slots of the
    block of [capacity] slots, and the live entries, read from [mStart] up to
    but excluding [mEnd] modulo the capacity, are at most [capacity - 1]; they
    are the most recent entries written. *)
Theorem ring_invariant :
  (∀ uninit flag,
     let s0 := construct NUM_COMMANDS uninit flag in
     mStart s0 = mEnd s0 ∧ live_entries NUM_COMMANDS s0 = [])
  ∧ (∀ s, reachable NUM_COMMANDS DEBUG_DISPLAY_LIST cstring stat_row s →
          cursors_valid NUM_COMMANDS s
          ∧ length (live_entries NUM_COMMANDS s) ≤ cap - 1)
  ∧ (∀ uninit flag cs s,
       run NUM_COMMANDS DEBUG_DISPLAY_LIST cstring stat_row cs
           (construct NUM_COMMANDS uninit flag) = Some s →
       cursors_valid NUM_COMMANDS s
       ∧ live_entries NUM_COMMANDS s
         = Some <$> last_n (cap - 1) (cs ≫= logged)).
Proof.
  replace (cap - 1) with NUM_COMMANDS by (unfold BUFFER_SIZE; lia).
  split_and!.
  - intros uninit flag s0. split; [done |].
    by rewrite (ring_inv_live NUM_COMMANDS [] s0)
      by apply ring_inv_construct.
  - intros s Hr.
    destruct (reachable_ring_inv _ _ _ _ s Hr) as [ws Hinv].
    split; [by eapply ring_inv_cursors |].
    rewrite (ring_inv_live _ _ _ Hinv), length_fmap, last_n_length. lia.
  - intros uninit flag cs s Hrun.
    pose proof (run_ring_inv _ _ _ _ cs [] _ s
                  (ring_inv_construct NUM_COMMANDS uninit flag) Hrun) as Hinv.
    simpl in Hinv.
    split; [by eapply ring_inv_cursors | by apply ring_inv_live].
Qed.

(** C7. In a state with valid cursors the loop of outputCommands comes to its
    end: its cursor, advanced with wrap-around, is at [mEnd] after
    [live_count] turns and not before, which is fewer than [capacity] turns;
    the call then returns the state it was given, the log is as before, and
    the stream has only grown. If it may not test the cursor that often it
    has not returned. *)
Theorem outputCommands_terminates s :
  cursors_valid NUM_COMMANDS s →
  let n := live_count NUM_COMMANDS s in
  n < cap
  ∧ cursor_after NUM_COMMANDS n s = mEnd s
  ∧ (∀ k, k < n → cursor_after NUM_COMMANDS k s ≠ mEnd s)
  ∧ (∀ fuel content log,
       n < fuel →
       ∃ text,
         outputCommands NUM_COMMANDS cstring stat_row fuel (Some content) log s
         = Done (s, (Some (content +:+ text), log)))
  ∧ (∀ fuel content log,
       fuel ≤ n →
       outputCommands NUM_COMMANDS cstring stat_row fuel (Some content) log s
       = OutOfFuel).
Proof.
  intros Hv n.
  destruct (cursors_valid_live_Some NUM_COMMANDS cstring s Hv) as (es & Hes & Hl).
  pose proof (cursors_valid_lt _ _ Hv) as (Hlen & Hs & He).
  pose proof (live_count_reaches NUM_COMMANDS s Hs He) as Hreach. fold n in Hreach, Hl.
  assert (Hn : n < cap) by (apply Nat.mod_upper_bound; unfold BUFFER_SIZE; lia).
  split_and!.
  - done.
  - by rewrite cursor_after_mod.
  - intros k Hk. rewrite cursor_after_mod, <- Hreach by done.
    apply mod_window_inj; lia.
  - intros fuel content log Hfuel.
    rewrite (outputCommands_dump _ _ _ s content log fuel es Hv Hes), Hl.
    destruct (decide (n < fuel)); [|lia].
    eexists. by rewrite append_assoc.
  - intros fuel content log Hfuel.
    rewrite (outputCommands_dump _ _ _ s content log fuel es Hv Hes), Hl.
    by destruct (decide (n < fuel)); [lia |].
Qed.

(** C3 (amended). With the tables compiled in, for durations [d1] and [d2]
    that fit 64 bits, [d2] not negative and [d1 + d2] strictly below
    INT64_MAX: recording a label that a table does not hold inserts an entry
    with count 1 and total, maximum and last duration [d1]; recording it a
    second time gives count 2, total [d1 + d2], maximum [max d1 d2] and last
    [d2]. This holds in the all-time table always and in the per-frame table
    when timing mode is on; when it is off the per-frame table is as it was. *)
Theorem record_twice lvl1 lvl2 lbl d1 d2 s :
  is_int64 d1 → is_int64 d2 → (0 ≤ d2)%Z → (d1 + d2 < INT64_MAX)%Z →
  let s1 := writeCommand_duration NUM_COMMANDS true lvl1 lbl d1 s in
  let s2 := writeCommand_duration NUM_COMMANDS true lvl2 lbl d2 s1 in
  (valueFor lbl (mOpBuffer s) = None →
   valueFor lbl (mOpBuffer s1) = Some (mkOpEntry lbl 1 d1 d1 d1)
   ∧ valueFor lbl (mOpBuffer s2)
     = Some (mkOpEntry lbl 2 (d1 `max` d2) (d1 + d2) d2))
  ∧ (mIsLogCommands s = true → valueFor lbl (mOpBufferPerFrame s) = None →
     valueFor lbl (mOpBufferPerFrame s1) = Some (mkOpEntry lbl 1 d1 d1 d1)
     ∧ valueFor lbl (mOpBufferPerFrame s2)
       = Some (mkOpEntry lbl 2 (d1 `max` d2) (d1 + d2) d2))
  ∧ (mIsLogCommands s = false →
     mOpBufferPerFrame s1 = mOpBufferPerFrame s
     ∧ mOpBufferPerFrame s2 = mOpBufferPerFrame s).
Proof.
  intros H1 H2 Hpos Hsum s1 s2.
  destruct (record_tables_debug NUM_COMMANDS lvl1 lbl d1 s) as (Ha1 & Hp1 & Hm1).
  destruct (record_tables_debug NUM_COMMANDS lvl2 lbl d2 s1) as (Ha2 & Hp2 & Hm2).
  fold s1 in Ha1, Hp1, Hm1, Ha2, Hp2, Hm2. fold s2 in Ha2, Hp2, Hm2.
  split_and!.
  - intros Habs. rewrite Ha2, Ha1. by apply update_table_twice.
  - intros Hon Habs. rewrite Hp2, Hm1, Hp1, Hon. by apply update_table_twice.
  - intros Hoff. rewrite Hp2, Hm1, Hp1, Hoff. done.
Qed.

(** C4 (amended). With the tables compiled in, for an entry found in a table
    with a total [t] that fits 64 bits and a count below INT_MAX, and a
    recorded duration [0 ≤ d ≤ INT64_MAX]: the entry accumulates (count + 1,
    maximum updated, total [t + d]) if and only if [t + d] is strictly below
    INT64_MAX, which is the guard [t < INT64_MAX - d] of the code; otherwise
    its count is 1 and its total and maximum are [d]. Its last duration is
    [d] in both cases. The same holds in the per-frame table in timing
    mode. *)
Theorem record_existing lvl lbl d s :
  (0 ≤ d ≤ INT64_MAX)%Z →
  let s' := writeCommand_duration NUM_COMMANDS true lvl lbl d s in
  let outcome_of item :=
    if (mTotalDuration item + d <? INT64_MAX)%Z then accumulated d item
    else started_over d item in
  (∀ item,
     valueFor lbl (mOpBuffer s) = Some item →
     is_int64 (mTotalDuration item) → (- 2 ^ 31 ≤ mCount item < INT_MAX)%Z →
     valueFor lbl (mOpBuffer s') = Some (outcome_of item)
     ∧ mLastDuration (outcome_of item) = d)
  ∧ (∀ item,
       mIsLogCommands s = true →
       valueFor lbl (mOpBufferPerFrame s) = Some item →
       is_int64 (mTotalDuration item) → (- 2 ^ 31 ≤ mCount item < INT_MAX)%Z →
       valueFor lbl (mOpBufferPerFrame s') = Some (outcome_of item)
       ∧ mLastDuration (outcome_of item) = d).
Proof.
  intros Hd s' outcome_of.
  destruct (record_tables_debug NUM_COMMANDS lvl lbl d s) as (Ha & Hp & _).
  fold s' in Ha, Hp.
  assert (Hlast : ∀ item, mLastDuration (outcome_of item) = d).
  { intros item. unfold outcome_of.
    by destruct (mTotalDuration item + d <? INT64_MAX)%Z. }
  split.
  - intros item Hitem Ht Hc. split; [|done].
    rewrite Ha, valueFor_update_table, N.eqb_refl, Hitem.
    by rewrite update_item_in_range.
  - intros item Hon Hitem Ht Hc. split; [|done].
    rewrite Hp, Hon, valueFor_update_table, N.eqb_refl, Hitem.
    by rewrite update_item_in_range.
Qed.

(** C5. When outputCommandsInternal reports (on a stream, or in timing mode
    on the log), the table reported is the all-time one for a stream and the
    per-frame one for the log. For an empty table nothing is emitted, not
    even the header. Otherwise the header is emitted and then one row for
    each entry of the table, the rows in order of non-increasing total
    duration; entries with the totals 30, 10, 20 come out as 30, 20, 10. *)
Theorem report_sorted file log s :
  mIsLogCommands s = true ∨ is_Some file →
  let table := if file is None then mOpBufferPerFrame s else mOpBuffer s in
  ∃ rows,
    rows ≡ₚ table.*2
    ∧ descending rows
    ∧ outputCommandsInternal stat_row file log s
      = (s, match file with
            | Some content =>
                (Some (content
                       +:+ match table with
                           | [] => ""
                           | _ :: _ =>
                               newline +:+ stat_header +:+ newline
                               +:+ cat_lines ((λ e, stat_row e +:+ newline) <$> rows)
                           end),
                 log)
            | None =>
                (None,
                 match table with
                 | [] => log
                 | _ :: _ => log ++ stat_header :: (stat_row <$> rows)
                 end)
            end)
    ∧ ∀ k1 k2 k3 n1 n2 n3 c1 c2 c3 m1 m2 m3 l1 l2 l3,
        mTotalDuration
          <$> sorted_list [(k1, mkOpEntry n1 c1 m1 30 l1);
                           (k2, mkOpEntry n2 c2 m2 10 l2);
                           (k3, mkOpEntry n3 c3 m3 20 l3)]
        = [30; 20; 10]%Z.
Proof.
  intros Hgate table. exists (sorted_list table).
  split_and!.
  - apply sorted_list_perm.
  - apply sorted_list_descending.
  - destruct file as [content|]; subst table.
    + by rewrite outputCommandsInternal_file.
    + destruct Hgate as [Hon|[? ?]]; [|done].
      by rewrite outputCommandsInternal_log, Hon.
  - done.
Qed.

(** C6. preFlush reads the flag and, when the flag enables timing mode (in
    particular when the mode was off before), clears the per-frame table; it
    never changes the all-time table or the ring, and with any other flag
    value it leaves the per-frame table as it was. No call other than a
    record changes the all-time table. *)
Theorem preFlush_clears_per_frame_only :
  (∀ s, let s' := preFlush true "1" s in
        mOpBufferPerFrame s' = [] ∧ mIsLogCommands s' = true)
  ∧ (∀ value s,
       let s' := preFlush DEBUG_DISPLAY_LIST value s in
       mOpBuffer s' = mOpBuffer s ∧ mBuffer s' = mBuffer s
       ∧ mStart s' = mStart s ∧ mEnd s' = mEnd s
       ∧ (value ≠ "1" → mOpBufferPerFrame s' = mOpBufferPerFrame s))
  ∧ (∀ c s s',
       is_record c = false →
       exec NUM_COMMANDS DEBUG_DISPLAY_LIST cstring stat_row c s = Some s' →
       mOpBuffer s' = mOpBuffer s).
Proof.
  split_and!.
  - done.
  - intros value s. unfold preFlush.
    destruct DEBUG_DISPLAY_LIST; [|done]. simpl. split_and!; try done.
    intros Hne. destruct (String.eqb_spec value "1"); done.
  - intros c s s' Hc Hexec.
    destruct c as [lvl lbl|lvl lbl d|fuel file|value|]; simpl in *; try done.
    + by injection Hexec as <-.
    + destruct (outputCommands _ _ _ _ _ _ _) as [r| |] eqn:E; [|done..].
      injection Hexec as <-. by rewrite (outputCommands_state _ _ _ _ _ _ _ _ E).
    + injection Hexec as <-. unfold preFlush. by destruct DEBUG_DISPLAY_LIST.
    + injection Hexec as <-. by rewrite postFlush_state.
Qed.

(** C8. With a stream, valid cursors, nesting levels from 0 whose double fits
    an [int] and enough turns, outputCommands first appends one line for each
    live entry, oldest first, each made of [2 * level] spaces, the label and a
    newline, and after them the report of the all-time table, its rows in
    order of non-increasing total; the log is not written. The timing mode
    and the per-frame table have no part in it: with any other values for
    them the output is the same. *)
Theorem outputCommands_ring_then_all_time s es content log fuel :
  cursors_valid NUM_COMMANDS s →
  live_entries NUM_COMMANDS s = Some <$> es →
  Forall (λ e, (0 ≤ level e ≤ 2 ^ 30 - 1)%Z) es →
  length es < fuel →
  let rows := sorted_list (mOpBuffer s) in
  let text := (content +:+ cat_lines (indented_line cstring <$> es))
              +:+ report_text stat_row (mOpBuffer s) rows in
  rows ≡ₚ (mOpBuffer s).*2
  ∧ descending rows
  ∧ outputCommands NUM_COMMANDS cstring stat_row fuel (Some content) log s
    = Done (s, (Some text, log))
  ∧ ∀ flag perFrame,
      outputCommands NUM_COMMANDS cstring stat_row fuel (Some content) log
        (set_mode flag perFrame s)
      = Done (set_mode flag perFrame s, (Some text, log)).
Proof.
  intros Hv Hes Hlv Hfuel rows text.
  assert (E : op_line cstring <$> es = indented_line cstring <$> es).
  { apply Forall_fmap_ext_1. eapply Forall_impl; [exact Hlv |].
    intros e He. by apply op_line_nesting. }
  split_and!; [apply sorted_list_perm | apply sorted_list_descending | |].
  - rewrite (outputCommands_dump _ _ _ s content log fuel es Hv Hes), E.
    by destruct (decide (length es < fuel)).
  - intros flag perFrame.
    rewrite (outputCommands_dump _ _ _ (set_mode flag perFrame s)
               content log fuel es Hv Hes), E.
    by destruct (decide (length es < fuel)).
Qed.

(** C10. A record of label [lbl] leaves the entry of every other label as it
    was, in the all-time table and in the per-frame table: a label absent
    stays absent and a label present keeps its statistics. *)
Theorem record_other_labels lvl lbl d lbl' s :
  lbl' ≠ lbl →
  let s' := writeCommand_duration NUM_COMMANDS DEBUG_DISPLAY_LIST lvl lbl d s in
  valueFor lbl' (mOpBuffer s') = valueFor lbl' (mOpBuffer s)
  ∧ valueFor lbl' (mOpBufferPerFrame s') = valueFor lbl' (mOpBufferPerFrame s).
Proof.
  intros Hne s'. subst s'.
  assert (Hother : ∀ buffer,
    valueFor lbl' (update_table lbl d buffer) = valueFor lbl' buffer).
  { intros buffer. rewrite valueFor_update_table.
    by destruct (N.eqb_spec lbl lbl'); [congruence |]. }
  destruct DEBUG_DISPLAY_LIST.
  - destruct (record_tables_debug NUM_COMMANDS lvl lbl d s) as (-> & -> & _).
    split; [done |]. by destruct (mIsLogCommands s).
  - by destruct (record_tables_nodebug NUM_COMMANDS lvl lbl d s) as (-> & -> & _).
Qed.

(** C9. For nesting levels from 0 whose double fits an [int], every live
    entry is written as one line made of [2 * level] spaces, the label and a
    newline. On a ring of four slots (NUM_COMMANDS = 3), after the writes
    (0, "A"), (1, "B"), (0, "C") the dump is the lines "A", "  B", "C", and
    after a fourth write (0, "D") it is "  B", "C", "D". *)
Theorem dump_line_format :
  (∀ s es content log fuel,
     cursors_valid NUM_COMMANDS s →
     live_entries NUM_COMMANDS s = Some <$> es →
     Forall (λ e, (0 ≤ level e ≤ 2 ^ 30 - 1)%Z) es →
     length es < fuel →
     outputCommands NUM_COMMANDS cstring stat_row fuel (Some content) log s
     = Done (s, (Some ((content +:+ cat_lines (indented_line cstring <$> es))
                       +:+ report_text stat_row (mOpBuffer s)
                             (sorted_list (mOpBuffer s))),
                 log)))
  ∧ (∀ uninit flag pA pB pC pD content log fuel,
       cstring pA = "A" → cstring pB = "B" → cstring pC = "C" →
       cstring pD = "D" → 4 ≤ fuel →
       let s3 := write_all 3 [mkOpLog 0 pA; mkOpLog 1 pB; mkOpLog 0 pC]
                   (construct 3 uninit flag) in
       let s4 := writeCommand 3 0 pD s3 in
       outputCommands 3 cstring stat_row fuel (Some content) log s3
       = Done (s3, (Some (content
                          +:+ cat_lines ["A" +:+ newline; "  B" +:+ newline;
                                         "C" +:+ newline]),
                    log))
       ∧ outputCommands 3 cstring stat_row fuel (Some content) log s4
         = Done (s4, (Some (content
                            +:+ cat_lines ["  B" +:+ newline; "C" +:+ newline;
                                           "D" +:+ newline]),
                      log))).
Proof.
  split.
  - intros s es content log fuel Hv Hes Hlv Hfuel.
    rewrite (outputCommands_dump _ _ _ s content log fuel es Hv Hes).
    destruct (decide (length es < fuel)); [|done].
    assert (E : op_line cstring <$> es = indented_line cstring <$> es);
      [| by rewrite E].
    apply Forall_fmap_ext_1.
    eapply Forall_impl; [exact Hlv |]. intros e He. by apply op_line_nesting.
  - intros uninit flag pA pB pC pD content log fuel HA HB HC HD Hfuel s3 s4.
    split.
    + unfold s3. rewrite (dump_after_writes 3) by done.
      unfold last_n, op_line. simpl. by rewrite HA, HB, HC.
    + change s4 with
        (write_all 3 [mkOpLog 0 pA; mkOpLog 1 pB; mkOpLog 0 pC; mkOpLog 0 pD]
           (construct 3 uninit flag)).
      rewrite (dump_after_writes 3) by done.
      unfold last_n, op_line. simpl. by rewrite HB, HC, HD.
Qed.

End Claims.

(** * The claims at concrete inputs *)

Lemma writes_then_dump_witness :
  let short := write_all 3 [entry_A; entry_B] (construct 3 sample_uninit false) in
  let long := write_all 3 [entry_A; entry_B; entry_C; entry_D; entry_B; entry_A]
                (construct 3 sample_uninit false) in
  outputCommands 3 sample_memory sample_row 4 (Some "") [] short
  = Done (short,
          (Some ("" +:+ cat_lines ["A" +:+ newline; "  B" +:+ newline]), []))
  ∧ outputCommands 3 sample_memory sample_row 4 (Some "") [] long
    = Done (long,
            (Some ("" +:+ cat_lines ["D" +:+ newline; "  B" +:+ newline;
                                     "A" +:+ newline]), [])).
Proof.
  intros short long.
  destruct (writes_then_dump 3 sample_memory sample_row sample_uninit false
              [entry_A; entry_B] "" [] 4) as (Hshort & _).
  { repeat constructor; simpl; lia. }
  { vm_compute. lia. }
  destruct (writes_then_dump 3 sample_memory sample_row sample_uninit false
              [entry_A; entry_B; entry_C; entry_D; entry_B; entry_A] "" [] 4)
    as (_ & Hlong).
  { repeat constructor; simpl; lia. }
  { vm_compute. lia. }
  split.
  - apply Hshort. vm_compute. lia.
  - apply Hlong. vm_compute. lia.
Defined.

Lemma ring_invariant_witness :
  let cs := [WriteCommand 0 1%N; PreFlush "1"; WriteCommandDuration 1 2%N 10;
             PostFlush; OutputCommands 4 (Some ""); WriteCommand 0 3%N;
             WriteCommand 2 4%N; WriteCommand 0 1%N] in
  ∃ s,
    run 3 true sample_memory sample_row cs (construct 3 sample_uninit false)
    = Some s
    ∧ cursors_valid 3 s
    ∧ length (live_entries 3 s) ≤ BUFFER_SIZE 3 - 1
    ∧ live_entries 3 s = Some <$> last_n (BUFFER_SIZE 3 - 1) (cs ≫= logged).
Proof.
  intros cs.
  destruct (run 3 true sample_memory sample_row cs
              (construct 3 sample_uninit false)) as [s|] eqn:E;
    [| by vm_compute in E].
  exists s.
  destruct (ring_invariant 3 true sample_memory sample_row) as (_ & Hreach & Hrun).
  destruct (Hrun _ _ _ _ E) as [Hv Hlive].
  split_and!; [done | exact Hv | | exact Hlive].
  apply Hreach. eapply run_reachable; [apply reach_construct | exact E].
Defined.

Lemma record_twice_witness :
  let on := construct 3 sample_uninit true in
  let on1 := writeCommand_duration 3 true 0 1%N 5 on in
  let on2 := writeCommand_duration 3 true 1 1%N 7 on1 in
  let off := construct 3 sample_uninit false in
  let off1 := writeCommand_duration 3 true 0 1%N 5 off in
  let off2 := writeCommand_duration 3 true 1 1%N 7 off1 in
  (valueFor 1%N (mOpBuffer on1) = Some (mkOpEntry 1%N 1 5 5 5)
   ∧ valueFor 1%N (mOpBuffer on2) = Some (mkOpEntry 1%N 2 (5 `max` 7) (5 + 7) 7))
  ∧ (valueFor 1%N (mOpBufferPerFrame on1) = Some (mkOpEntry 1%N 1 5 5 5)
     ∧ valueFor 1%N (mOpBufferPerFrame on2)
       = Some (mkOpEntry 1%N 2 (5 `max` 7) (5 + 7) 7))
  ∧ (mOpBufferPerFrame off1 = mOpBufferPerFrame off
     ∧ mOpBufferPerFrame off2 = mOpBufferPerFrame off).
Proof.
  intros on on1 on2 off off1 off2.
  assert (H5 : is_int64 5) by (unfold is_int64, INT64_MIN, INT64_MAX; lia).
  assert (H7 : is_int64 7) by (unfold is_int64, INT64_MIN, INT64_MAX; lia).
  assert (Hpos : (0 ≤ 7)%Z) by lia.
  assert (Hsum : (5 + 7 < INT64_MAX)%Z) by (unfold INT64_MAX; lia).
  destruct (record_twice 3 0 1 1%N 5 7 on H5 H7 Hpos Hsum) as (Ha & Hp & _).
  destruct (record_twice 3 0 1 1%N 5 7 off H5 H7 Hpos Hsum) as (_ & _ & Hoff).
  split_and!; [apply Ha | apply Ha | apply Hp | apply Hp | apply Hoff | apply Hoff];
    reflexivity.
Defined.

(** C3 as claimed fails at the limit: 9223372036854775806 + 1 is INT64_MAX and
    does not overflow, yet the second record starts the entry over. *)
Lemma record_twice_at_limit :
  let d1 := (INT64_MAX - 1)%Z in
  let s := construct 50 sample_uninit false in
  let s2 := writeCommand_duration 50 true 0 1%N 1
              (writeCommand_duration 50 true 0 1%N d1 s) in
  (is_int64 d1 ∧ is_int64 1 ∧ is_int64 (d1 + 1))
  ∧ valueFor 1%N (mOpBuffer s) = None
  ∧ valueFor 1%N (mOpBuffer s2) = Some (mkOpEntry 1%N 1 1 1 1)
  ∧ valueFor 1%N (mOpBuffer s2)
    ≠ Some (mkOpEntry 1%N 2 (d1 `max` 1) (d1 + 1) 1).
Proof.
  intros d1 s s2. subst d1. split_and!.
  - unfold is_int64, INT64_MIN, INT64_MAX. lia.
  - unfold is_int64, INT64_MIN, INT64_MAX. lia.
  - unfold is_int64, INT64_MIN, INT64_MAX. lia.
  - reflexivity.
  - vm_compute. reflexivity.
  - vm_compute. discriminate.
Qed.

Lemma record_existing_witness :
  let s := writeCommand_duration 3 true 0 1%N 5 (construct 3 sample_uninit true) in
  let s' := writeCommand_duration 3 true 0 1%N 7 s in
  valueFor 1%N (mOpBuffer s') = Some (mkOpEntry 1%N 2 7 12 7)
  ∧ valueFor 1%N (mOpBufferPerFrame s') = Some (mkOpEntry 1%N 2 7 12 7).
Proof.
  intros s s'.
  assert (Hd : (0 ≤ 7 ≤ INT64_MAX)%Z) by (unfold INT64_MAX; lia).
  assert (Ht : is_int64 (mTotalDuration (mkOpEntry 1%N 1 5 5 5)))
    by (unfold is_int64, INT64_MIN, INT64_MAX; simpl; lia).
  assert (Hc : (- 2 ^ 31 ≤ mCount (mkOpEntry 1%N 1 5 5 5) < INT_MAX)%Z)
    by (unfold INT_MAX; simpl; lia).
  destruct (record_existing 3 0 1%N 7 s Hd) as (Ha & Hp).
  split.
  - exact (proj1 (Ha (mkOpEntry 1%N 1 5 5 5) eq_refl Ht Hc)).
  - exact (proj1 (Hp (mkOpEntry 1%N 1 5 5 5) eq_refl eq_refl Ht Hc)).
Defined.

(** C4 as claimed fails at the limit: the total 9223372036854775806 and the
    duration 1 add up to INT64_MAX without overflow, yet the entry is started
    over and not accumulated. *)
Lemma record_existing_at_limit :
  let item := mkOpEntry 1%N 1 (INT64_MAX - 1) (INT64_MAX - 1) (INT64_MAX - 1) in
  let s := writeCommand_duration 50 true 0 1%N (INT64_MAX - 1)
             (construct 50 sample_uninit false) in
  let s' := writeCommand_duration 50 true 0 1%N 1 s in
  is_int64 (mTotalDuration item + 1)
  ∧ valueFor 1%N (mOpBuffer s) = Some item
  ∧ valueFor 1%N (mOpBuffer s') = Some (started_over 1 item)
  ∧ started_over 1 item ≠ accumulated 1 item.
Proof.
  intros item s s'. subst item. split_and!.
  - unfold is_int64, INT64_MIN, INT64_MAX. simpl. lia.
  - reflexivity.
  - vm_compute. reflexivity.
  - vm_compute. discriminate.
Qed.

Lemma report_sorted_witness :
  ∃ rows,
    rows ≡ₚ (mOpBuffer sample_recorded).*2
    ∧ descending rows
    ∧ (outputCommandsInternal sample_row (Some "") [] sample_recorded).2.1
      = Some ("" +:+ newline +:+ stat_header +:+ newline
              +:+ cat_lines ((λ e, sample_row e +:+ newline) <$> rows)).
Proof.
  destruct (report_sorted sample_row (Some "") [] sample_recorded)
    as (rows & Hperm & Hdesc & Hout & _).
  - right. by eexists.
  - exists rows. split_and!; [exact Hperm | exact Hdesc |].
    by rewrite Hout.
Defined.

Lemma preFlush_clears_per_frame_only_witness :
  let s' := preFlush true "0" sample_recorded in
  mOpBufferPerFrame (preFlush true "1" sample_recorded) = []
  ∧ mOpBuffer s' = mOpBuffer sample_recorded
  ∧ mOpBufferPerFrame s' = mOpBufferPerFrame sample_recorded
  ∧ mOpBuffer (writeCommand 3 0 1%N sample_recorded) = mOpBuffer sample_recorded.
Proof.
  intros s'.
  destruct (preFlush_clears_per_frame_only 3 true sample_memory sample_row)
    as (Hclear & Hkeep & Hother).
  destruct (Hkeep "0" sample_recorded) as (Hall & _ & _ & _ & Hper).
  split_and!.
  - apply Hclear.
  - exact Hall.
  - apply Hper. discriminate.
  - exact (Hother (WriteCommand 0 1%N) sample_recorded _ eq_refl eq_refl).
Defined.

Lemma outputCommands_terminates_witness :
  let n := live_count 3 sample_recorded in
  n < BUFFER_SIZE 3
  ∧ cursor_after 3 n sample_recorded = mEnd sample_recorded
  ∧ ∃ text,
      outputCommands 3 sample_memory sample_row 4 (Some "") [] sample_recorded
      = Done (sample_recorded, (Some ("" +:+ text), []))
      ∧ outputCommands 3 sample_memory sample_row 3 (Some "") [] sample_recorded
        = OutOfFuel.
Proof.
  intros n.
  destruct (outputCommands_terminates 3 sample_memory sample_row sample_recorded)
    as (Hn & Hreach & _ & Hdone & Hout).
  - vm_compute. lia.
  - destruct (Hdone 4 "" []) as [text Htext]; [vm_compute; lia |].
    split_and!; [exact Hn | exact Hreach |].
    exists text. split; [exact Htext |].
    apply Hout. vm_compute. lia.
Defined.

Lemma outputCommands_ring_then_all_time_witness :
  let text :=
    ("" +:+ cat_lines ["A" +:+ newline; "  B" +:+ newline])
    +:+ newline +:+ stat_header +:+ newline
    +:+ cat_lines ["A" +:+ newline; "B" +:+ newline] in
  (mOpBuffer sample_frame).*1 = [1%N; 2%N]
  ∧ (mOpBufferPerFrame sample_frame).*1 = [2%N]
  ∧ outputCommands 3 sample_memory sample_row 3 (Some "") [] sample_frame
    = Done (sample_frame, (Some text, []))
  ∧ outputCommands 3 sample_memory sample_row 3 (Some "") []
      (set_mode false [] sample_frame)
    = Done (set_mode false [] sample_frame, (Some text, [])).
Proof.
  intros text.
  destruct (outputCommands_ring_then_all_time 3 sample_memory sample_row
              sample_frame [entry_A; entry_B] "" [] 3)
    as (_ & _ & Hout & Hany).
  - vm_compute. lia.
  - reflexivity.
  - repeat constructor; simpl; lia.
  - simpl. lia.
  - split_and!; [reflexivity | reflexivity | exact Hout | exact (Hany false [])].
Defined.

Lemma dump_line_format_witness :
  let s3 := write_all 3 [entry_A; entry_B; entry_C]
              (construct 3 sample_uninit false) in
  let s4 := writeCommand 3 0 4%N s3 in
  outputCommands 3 sample_memory sample_row 4 (Some "") [] s3
  = Done (s3, (Some (("" +:+ cat_lines (indented_line sample_memory
                                          <$> [entry_A; entry_B; entry_C]))
                     +:+ report_text sample_row (mOpBuffer s3)
                           (sorted_list (mOpBuffer s3))),
               []))
  ∧ outputCommands 3 sample_memory sample_row 4 (Some "") [] s3
    = Done (s3, (Some ("" +:+ cat_lines ["A" +:+ newline; "  B" +:+ newline;
                                         "C" +:+ newline]), []))
  ∧ outputCommands 3 sample_memory sample_row 4 (Some "") [] s4
    = Done (s4, (Some ("" +:+ cat_lines ["  B" +:+ newline; "C" +:+ newline;
                                         "D" +:+ newline]), [])).
Proof.
  intros s3 s4.
  destruct (dump_line_format 3 sample_memory sample_row) as (Hfmt & Hscn).
  destruct (Hscn sample_uninit false 1%N 2%N 3%N 4%N "" [] 4
              eq_refl eq_refl eq_refl eq_refl (le_n 4)) as (H3 & H4).
  split_and!; [| exact H3 | exact H4].
  apply Hfmt.
  - vm_compute. lia.
  - reflexivity.
  - repeat constructor; simpl; lia.
  - simpl. lia.
Defined.

Lemma record_other_labels_witness :
  let s' := writeCommand_duration 3 true 0 1%N 7 sample_recorded in
  valueFor 2%N (mOpBuffer s') = valueFor 2%N (mOpBuffer sample_recorded)
  ∧ valueFor 2%N (mOpBufferPerFrame s')
    = valueFor 2%N (mOpBufferPerFrame sample_recorded).
Proof.
  intros s'. apply (record_other_labels 3 true 0 1%N 7 2%N sample_recorded).
  discriminate.
Defined.

(** * Further properties of the code *)

(** ** Many records of one label *)

Lemma sum_durations_nonneg ds :
  Forall (λ d, (0 ≤ d)%Z) ds → (0 ≤ sum_durations ds)%Z.
Proof.
  induction 1 as [|d ds Hd _ IH]; simpl; [done |].
  unfold sum_durations in *. simpl. lia.
Qed.

Lemma max_duration_fold ds m :
  Forall (λ d, (0 ≤ d)%Z) ds → (0 ≤ m)%Z →
  fold_left Z.max ds m = Z.max m (max_duration ds).
Proof.
  intros Hds. revert m. induction Hds as [|d ds Hd _ IH]; intros m Hm; simpl.
  - unfold max_duration. simpl. lia.
  - rewrite IH by lia. unfold max_duration. simpl.
    fold (max_duration ds). lia.
Qed.

Lemma last_cons_Some (d0 : Z) ds : last (d0 :: ds) = Some (default d0 (last ds)).
Proof.
  revert d0. induction ds as [|d ds IH]; intros d0; [done |].
  change (last (d0 :: d :: ds)) with (last (d :: ds)).
  by rewrite (IH d).
Qed.

Lemma last_cons_default (d0 : Z) ds x :
  default x (last (d0 :: ds)) = default d0 (last ds).
Proof. by rewrite last_cons_Some. Qed.

Lemma sum_durations_cons d ds :
  sum_durations (d :: ds) = (d + sum_durations ds)%Z.
Proof. reflexivity. Qed.

(** Records on an entry that stay below the limit add up. *)
Lemma update_item_many ds item :
  Forall (λ d, (0 ≤ d)%Z) ds →
  (0 ≤ mTotalDuration item)%Z →
  (mTotalDuration item + sum_durations ds < INT64_MAX)%Z →
  (- 2 ^ 31 ≤ mCount item)%Z →
  (mCount item + Z.of_nat (length ds) ≤ INT_MAX)%Z →
  fold_left (λ it d, update_item d it) ds item
  = {| mName := mName item;
       mCount := mCount item + Z.of_nat (length ds);
       mMaxDuration := fold_left Z.max ds (mMaxDuration item);
       mTotalDuration := mTotalDuration item + sum_durations ds;
       mLastDuration := default (mLastDuration item) (last ds) |}.
Proof.
  intros Hds. revert item.
  induction Hds as [|d ds Hd Hds IH]; intros item Ht Hsum Hc Hn.
  - destruct item. cbn. f_equal; lia.
  - pose proof (sum_durations_nonneg ds Hds) as Hrest.
    rewrite sum_durations_cons in *.
    cbn [length] in *. rewrite Nat2Z.inj_succ in *.
    cbn [fold_left].
    rewrite update_item_in_range;
      [| unfold is_int64, INT64_MIN, INT64_MAX in *; lia
       | unfold INT64_MAX in *; lia | unfold INT_MAX in *; lia].
    destruct (Z.ltb_spec (mTotalDuration item + d) INT64_MAX) as [_|Hge];
      [| lia].
    rewrite IH; unfold accumulated; cbn [mName mCount mMaxDuration
      mTotalDuration mLastDuration]; [| lia | lia | lia | lia].
    f_equal; [lia | lia |].
    by rewrite last_cons_default.
Qed.

Lemma valueFor_update_many lbl (lds : list (Z * Z)) table item :
  valueFor lbl table = Some item →
  valueFor lbl (fold_left (λ t ld, update_table lbl ld.2 t) lds table)
  = Some (fold_left (λ it d, update_item d it) lds.*2 item).
Proof.
  revert table item. induction lds as [|ld lds IH]; intros table item Hitem;
    simpl; [done |].
  apply IH. by rewrite valueFor_update_table, N.eqb_refl, Hitem.
Qed.

Lemma record_all_tables NUM_COMMANDS lbl lds s :
  let s' := record_all NUM_COMMANDS lbl lds s in
  mOpBuffer s' = fold_left (λ t ld, update_table lbl ld.2 t) lds (mOpBuffer s)
  ∧ mOpBufferPerFrame s'
    = (if mIsLogCommands s
       then fold_left (λ t ld, update_table lbl ld.2 t) lds (mOpBufferPerFrame s)
       else mOpBufferPerFrame s)
  ∧ mIsLogCommands s' = mIsLogCommands s.
Proof.
  revert s. induction lds as [|ld lds IH]; intros s; simpl.
  - by destruct (mIsLogCommands s).
  - destruct (IH (writeCommand_duration NUM_COMMANDS true ld.1 lbl ld.2 s))
      as (Ha & Hp & Hm).
    destruct (record_tables_debug NUM_COMMANDS ld.1 lbl ld.2 s) as (Ha1 & Hp1 & Hm1).
    unfold record_all in *. rewrite Ha, Hp, Hm, Ha1, Hp1, Hm1.
    by destruct (mIsLogCommands s).
Qed.

(** The entry of a label after a first record and further ones, in a table
    that did not hold it. *)
Lemma update_table_many lbl ld0 (lds : list (Z * Z)) table :
  let ds := (ld0 :: lds).*2 in
  Forall (λ d, (0 ≤ d)%Z) ds →
  (sum_durations ds < INT64_MAX)%Z →
  (Z.of_nat (length ds) ≤ INT_MAX)%Z →
  valueFor lbl table = None →
  valueFor lbl (fold_left (λ t ld, update_table lbl ld.2 t) (ld0 :: lds) table)
  = Some (mkOpEntry lbl (Z.of_nat (length ds)) (max_duration ds)
            (sum_durations ds) (default 0%Z (last ds))).
Proof.
  intros ds Hds Hsum Hlen Habs. subst ds.
  rewrite fmap_cons in *. apply Forall_cons in Hds as [Hd0 Hds].
  cbn [fold_left].
  rewrite (valueFor_update_many lbl lds _ (OpEntry_new lbl 1 ld0.2))
    by (by rewrite valueFor_update_table, N.eqb_refl, Habs).
  unfold sum_durations in Hsum. simpl in Hsum, Hlen.
  rewrite update_item_many; simpl; try done; try (unfold INT_MAX in *; lia).
  f_equal. f_equal.
  - lia.
  - rewrite max_duration_fold by done.
    unfold max_duration. simpl. fold (max_duration lds.*2).
    pose proof (max_duration_fold lds.*2 0 Hds ltac:(lia)). lia.
  - by rewrite last_cons_default.
Qed.

(** ** The tables hold well-formed statistics *)

Lemma update_item_stat_ok k d item :
  (0 ≤ d ≤ INT64_MAX)%Z → stat_ok (k, item) → stat_ok (k, update_item d item).
Proof.
  unfold stat_ok. simpl. intros Hd (Hname & Hlast & Hmax).
  unfold update_item.
  rewrite (int64_in_range (INT64_MAX - d))
    by (unfold is_int64, INT64_MIN, INT64_MAX in *; lia).
  destruct (Z.ltb_spec (mTotalDuration item) (INT64_MAX - d)) as [Hlt|Hge]; simpl.
  - rewrite int64_in_range
      by (unfold is_int64, INT64_MIN, INT64_MAX in *; lia).
    destruct (Z.ltb_spec (mMaxDuration item) d); lia.
  - lia.
Qed.

Lemma add_Forall (P : ptr * OpEntry → Prop) key value v :
  P (key, value) → Forall P v → Forall P (add key value v).
Proof.
  intros Hnew. induction 1 as [|[k x] rest Hkx Hrest IH]; simpl.
  - by constructor.
  - destruct (key <? k)%N; [by repeat constructor |].
    destruct (k =? key)%N; by constructor.
Qed.

Lemma update_table_stat_ok lbl d table :
  (0 ≤ d ≤ INT64_MAX)%Z →
  Forall stat_ok table → Forall stat_ok (update_table lbl d table).
Proof.
  intros Hd Hall. unfold update_table.
  destruct (indexOfKey lbl table) as [i|].
  - unfold editValueAt. apply Forall_alter; [done |].
    intros [k item] _ Hok. by apply update_item_stat_ok.
  - apply add_Forall; [|done].
    unfold stat_ok, OpEntry_new. simpl. lia.
Qed.

Section WellFormed.

Context (NUM_COMMANDS : nat) (DEBUG_DISPLAY_LIST : bool)
        (cstring : ptr → string) (stat_row : OpEntry → string).

Lemma exec_stat_ok c s s' :
  duration_ok c →
  Forall stat_ok (mOpBuffer s) ∧ Forall stat_ok (mOpBufferPerFrame s) →
  exec NUM_COMMANDS DEBUG_DISPLAY_LIST cstring stat_row c s = Some s' →
  Forall stat_ok (mOpBuffer s') ∧ Forall stat_ok (mOpBufferPerFrame s').
Proof.
  intros Hd [Hall Hper] Hexec.
  destruct c as [lvl lbl|lvl lbl d|fuel file|value|]; simpl in *.
  - by injection Hexec as <-.
  - injection Hexec as <-. unfold writeCommand_duration.
    destruct DEBUG_DISPLAY_LIST; simpl; [|done].
    split; [by apply update_table_stat_ok |].
    destruct (mIsLogCommands s); [by apply update_table_stat_ok | done].
  - destruct (outputCommands _ _ _ _ _ _ _) as [r| |] eqn:E; [|done..].
    injection Hexec as <-. by rewrite (outputCommands_state _ _ _ _ _ _ _ _ E).
  - injection Hexec as <-. unfold preFlush.
    destruct DEBUG_DISPLAY_LIST; simpl; [|done].
    split; [done |]. by destruct (String.eqb value "1").
  - injection Hexec as <-. by rewrite postFlush_state.
Qed.

Lemma run_stat_ok cs s s' :
  Forall duration_ok cs →
  Forall stat_ok (mOpBuffer s) ∧ Forall stat_ok (mOpBufferPerFrame s) →
  run NUM_COMMANDS DEBUG_DISPLAY_LIST cstring stat_row cs s = Some s' →
  Forall stat_ok (mOpBuffer s') ∧ Forall stat_ok (mOpBufferPerFrame s').
Proof.
  intros Hcs. revert s. induction Hcs as [|c cs Hc _ IH]; intros s Hok Hrun;
    simpl in *.
  - by injection Hrun as <-.
  - destruct (exec _ _ _ _ c s) as [s1|] eqn:E; [|done]. simpl in Hrun.
    eapply IH; [|exact Hrun]. by eapply exec_stat_ok.
Qed.

(** X2. Whatever the calls made since the constructor, as long as the
    durations recorded are not negative: each table is in strictly increasing
    key order, so that no label has two entries, and each entry carries its
    key as its name and durations with 0 ≤ last ≤ maximum ≤ total ≤
    INT64_MAX. The total of an entry is never a wrapped sum. *)
Theorem tables_well_formed uninit flag cs s :
  Forall duration_ok cs →
  run NUM_COMMANDS DEBUG_DISPLAY_LIST cstring stat_row cs
      (construct NUM_COMMANDS uninit flag) = Some s →
  (sorted_keys (mOpBuffer s) ∧ Forall stat_ok (mOpBuffer s))
  ∧ (sorted_keys (mOpBufferPerFrame s) ∧ Forall stat_ok (mOpBufferPerFrame s)).
Proof.
  intros Hcs Hrun.
  destruct (run_stat_ok cs (construct NUM_COMMANDS uninit flag) s Hcs)
    as [Hall Hper]; [by split; constructor | exact Hrun |].
  destruct (reachable_tables_sorted NUM_COMMANDS DEBUG_DISPLAY_LIST cstring
              stat_row s) as [Hsa Hsp]; [|done].
  eapply run_reachable; [apply reach_construct | exact Hrun].
Qed.

End WellFormed.

(** ** Which labels the tables hold *)

Lemma is_Some_update_table lbl key' d table :
  is_Some (valueFor key' (update_table lbl d table))
  ↔ key' = lbl ∨ is_Some (valueFor key' table).
Proof.
  rewrite valueFor_update_table.
  destruct (N.eqb_spec lbl key') as [->|Hne].
  - split; [by left | by eexists].
  - split; [by right | intros [?|?]; [congruence | done]].
Qed.

Lemma is_Some_fold_update rs table key' :
  is_Some (valueFor key'
             (fold_left (λ table r, update_table r.1 r.2 table) rs table))
  ↔ key' ∈ rs.*1 ∨ is_Some (valueFor key' table).
Proof.
  revert table. induction rs as [|[lbl d] rs IH]; intros table; simpl.
  - rewrite elem_of_nil. tauto.
  - rewrite IH, is_Some_update_table, elem_of_cons. tauto.
Qed.

Section Labels.

Context (NUM_COMMANDS : nat) (DEBUG_DISPLAY_LIST : bool)
        (cstring : ptr → string) (stat_row : OpEntry → string).

Lemma exec_tables c s s' :
  exec NUM_COMMANDS true cstring stat_row c s = Some s' →
  mOpBuffer s'
  = fold_left (λ table r, update_table r.1 r.2 table) (recorded c) (mOpBuffer s)
  ∧ (is_preFlush c = false →
     mIsLogCommands s' = mIsLogCommands s
     ∧ mOpBufferPerFrame s'
       = if mIsLogCommands s
         then fold_left (λ table r, update_table r.1 r.2 table) (recorded c)
                (mOpBufferPerFrame s)
         else mOpBufferPerFrame s).
Proof.
  intros Hexec.
  destruct c as [lvl lbl|lvl lbl d|fuel file|value|];
    cbn [exec recorded is_preFlush fold_left] in *.
  - injection Hexec as <-. simpl. by destruct (mIsLogCommands s).
  - injection Hexec as <-. simpl. by destruct (mIsLogCommands s).
  - destruct (outputCommands _ _ _ _ _ _ _) as [r| |] eqn:E; [|done..].
    injection Hexec as <-. rewrite (outputCommands_state _ _ _ _ _ _ _ _ E).
    by destruct (mIsLogCommands s).
  - injection Hexec as <-. done.
  - injection Hexec as <-. rewrite outputCommandsInternal_state.
    by destruct (mIsLogCommands s).
Qed.

Lemma run_tables cs s s' :
  run NUM_COMMANDS true cstring stat_row cs s = Some s' →
  mOpBuffer s'
  = fold_left (λ table r, update_table r.1 r.2 table) (cs ≫= recorded)
      (mOpBuffer s)
  ∧ (forallb (λ c, negb (is_preFlush c)) cs = true →
     mIsLogCommands s' = mIsLogCommands s
     ∧ mOpBufferPerFrame s'
       = if mIsLogCommands s
         then fold_left (λ table r, update_table r.1 r.2 table) (cs ≫= recorded)
                (mOpBufferPerFrame s)
         else mOpBufferPerFrame s).
Proof.
  revert s. induction cs as [|c cs IH]; intros s Hrun; simpl in *.
  - injection Hrun as <-. split; [done |]. by destruct (mIsLogCommands s).
  - destruct (exec _ _ _ _ c s) as [s1|] eqn:E; [|done]. simpl in Hrun.
    destruct (exec_tables c s s1 E) as (Ha1 & Hp1).
    destruct (IH s1 Hrun) as (Ha & Hp).
    rewrite !fold_left_app. split; [by rewrite Ha, Ha1 |].
    intros Hno. apply andb_true_iff in Hno as [Hc Hcs].
    apply negb_true_iff in Hc.
    destruct (Hp1 Hc) as (Hm1 & Hf1). destruct (Hp Hcs) as (Hm & Hf).
    rewrite Hm, Hm1, Hf, Hm1, Hf1. split; [done |].
    by destruct (mIsLogCommands s).
Qed.

Lemma run_nodebug_tables cs s s' :
  run NUM_COMMANDS false cstring stat_row cs s = Some s' →
  mOpBuffer s' = mOpBuffer s ∧ mOpBufferPerFrame s' = mOpBufferPerFrame s.
Proof.
  revert s. induction cs as [|c cs IH]; intros s Hrun; simpl in *.
  - by injection Hrun as <-.
  - destruct (exec _ _ _ _ c s) as [s1|] eqn:E; [|done]. simpl in Hrun.
    destruct (IH s1 Hrun) as [-> ->].
    destruct c as [lvl lbl|lvl lbl d|fuel file|value|]; cbn [exec] in E.
    + by injection E as <-.
    + by injection E as <-.
    + destruct (outputCommands _ _ _ _ _ _ _) as [r| |] eqn:E'; [|done..].
      injection E as <-. by rewrite (outputCommands_state _ _ _ _ _ _ _ _ E').
    + by injection E as <-.
    + by injection E as <-.
Qed.

End Labels.

(** ** The order of the rows among equal totals *)

Lemma descending_filter_below e lst t :
  descending (e :: lst) → (mTotalDuration e < t)%Z →
  filter (λ x, mTotalDuration x = t) (e :: lst) = [].
Proof.
  intros Hs Hlt. apply StronglySorted_inv in Hs as [_ Hall].
  rewrite filter_cons_False by lia.
  induction Hall as [|x rest Hx _ IH]; [done |].
  rewrite filter_cons_False by lia. done.
Qed.

Lemma insert_entry_filter lst entry t :
  descending lst →
  filter (λ x, mTotalDuration x = t) (insert_entry lst entry)
  = filter (λ x, mTotalDuration x = t) lst
    ++ filter (λ x, mTotalDuration x = t) [entry].
Proof.
  induction lst as [|e lst IH]; intros Hs; [done |].
  rewrite insert_entry_cons.
  destruct (Z.ltb_spec (mTotalDuration e) (mTotalDuration entry)) as [Hlt|Hge].
  - destruct (decide (mTotalDuration entry = t)) as [Ht|Ht].
    + rewrite (filter_cons_True _ entry) by done.
      rewrite descending_filter_below by (done || lia).
      by rewrite filter_cons_True by done.
    + rewrite (filter_cons_False _ entry) by done.
      rewrite (filter_cons_False _ entry []) by done.
      by rewrite app_nil_r.
  - rewrite !(filter_cons _ e), IH
      by (by apply StronglySorted_inv in Hs as [? _]).
    by destruct (decide (mTotalDuration e = t)).
Qed.

Lemma fold_insert_filter rest acc t :
  descending acc →
  filter (λ x, mTotalDuration x = t) (fold_left insert_entry rest acc)
  = filter (λ x, mTotalDuration x = t) acc
    ++ filter (λ x, mTotalDuration x = t) rest.
Proof.
  revert acc. induction rest as [|x rest IH]; intros acc Hacc; simpl.
  - by rewrite app_nil_r.
  - rewrite IH by (by apply insert_entry_descending).
    rewrite insert_entry_filter by done.
    rewrite <- app_assoc. f_equal.
    rewrite (filter_cons _ x rest).
    rewrite (filter_cons _ x []).
    by destruct (decide (mTotalDuration x = t)).
Qed.

(** X8. The insertion of the report is stable: the entries that have the
    same total come out in the order the table holds them, which is the
    order of their keys. *)
Theorem report_order_stable (ops : KeyedVector) (t : Z) :
  filter (λ e, mTotalDuration e = t) (sorted_list ops)
  = filter (λ e, mTotalDuration e = t) ops.*2.
Proof.
  destruct ops as [|kv0 rest]; [done |]. simpl sorted_list.
  rewrite fold_insert_filter by repeat constructor.
  rewrite fmap_cons, (filter_cons _ kv0.2 rest.*2), (filter_cons _ kv0.2 []).
  by destruct (decide (mTotalDuration kv0.2 = t)).
Qed.

(** ** One write on a reachable ring *)

Lemma last_n_snoc {A} n (l : list A) x :
  1 ≤ n →
  last_n n (l ++ [x]) = drop (if n <=? length l then 1 else 0) (last_n n l) ++ [x].
Proof.
  intros Hn. unfold last_n. rewrite length_app. simpl.
  destruct (Nat.leb_spec n (length l)) as [Hle|Hgt].
  - rewrite drop_app_le by lia. rewrite drop_drop. do 2 f_equal. lia.
  - replace (length l + 1 - n) with 0 by lia.
    by replace (length l - n) with 0 by lia.
Qed.

Section More.

Context (NUM_COMMANDS : nat) (DEBUG_DISPLAY_LIST : bool)
        (cstring : ptr → string) (stat_row : OpEntry → string).

(** X1. With the tables compiled in, records of one label with durations
    that are not negative and add up to less than INT64_MAX, fewer than 2^31
    of them, leave for a label the table did not hold an entry whose count
    is their number, whose total is their sum, whose maximum is their
    greatest and whose last duration is the last one recorded; in the
    all-time table, and in the per-frame table in timing mode. *)
Theorem record_many lbl ld0 (lds : list (Z * Z)) s :
  let ds := (ld0 :: lds).*2 in
  Forall (λ d, (0 ≤ d)%Z) ds →
  (sum_durations ds < INT64_MAX)%Z →
  (Z.of_nat (length ds) ≤ INT_MAX)%Z →
  let s' := record_all NUM_COMMANDS lbl (ld0 :: lds) s in
  let stat := mkOpEntry lbl (Z.of_nat (length ds)) (max_duration ds)
                (sum_durations ds) (default 0%Z (last ds)) in
  (valueFor lbl (mOpBuffer s) = None →
   valueFor lbl (mOpBuffer s') = Some stat)
  ∧ (mIsLogCommands s = true → valueFor lbl (mOpBufferPerFrame s) = None →
     valueFor lbl (mOpBufferPerFrame s') = Some stat).
Proof.
  intros ds Hds Hsum Hlen s' stat.
  destruct (record_all_tables NUM_COMMANDS lbl (ld0 :: lds) s) as (Ha & Hp & _).
  fold s' in Ha, Hp. split.
  - intros Habs. rewrite Ha. by apply update_table_many.
  - intros Hon Habs. rewrite Hp, Hon. by apply update_table_many.
Qed.

(** X3. In every state reached from the constructor, a label that has an
    entry in the per-frame table has one in the all-time table. *)
Theorem per_frame_within_all_time s lbl :
  reachable NUM_COMMANDS DEBUG_DISPLAY_LIST cstring stat_row s →
  is_Some (valueFor lbl (mOpBufferPerFrame s)) →
  is_Some (valueFor lbl (mOpBuffer s)).
Proof.
  induction 1 as [uninit flag|c s s' _ IH Hexec].
  - by intros [? ?].
  - destruct c as [lvl l|lvl l d|fuel file|value|]; cbn [exec] in Hexec.
    + by injection Hexec as <-.
    + injection Hexec as <-. unfold writeCommand_duration.
      destruct DEBUG_DISPLAY_LIST; simpl; [|done].
      rewrite is_Some_update_table.
      destruct (mIsLogCommands s); [|tauto].
      rewrite is_Some_update_table. tauto.
    + destruct (outputCommands _ _ _ _ _ _ _) as [r| |] eqn:E; [|done..].
      injection Hexec as <-. by rewrite (outputCommands_state _ _ _ _ _ _ _ _ E).
    + injection Hexec as <-. unfold preFlush.
      destruct DEBUG_DISPLAY_LIST; simpl; [|done].
      destruct (String.eqb value "1"); [by intros [? ?] | done].
    + injection Hexec as <-. by rewrite postFlush_state.
Qed.

(** X4. With the tables compiled in, the all-time table of a state reached
    from the constructor has an entry for a label exactly when a record of
    that label was among the calls. With the tables compiled out both tables
    stay empty. *)
Theorem all_time_labels uninit flag cs :
  (∀ s lbl,
     run NUM_COMMANDS true cstring stat_row cs
         (construct NUM_COMMANDS uninit flag) = Some s →
     (is_Some (valueFor lbl (mOpBuffer s)) ↔ lbl ∈ (cs ≫= recorded).*1))
  ∧ (∀ s,
       run NUM_COMMANDS false cstring stat_row cs
           (construct NUM_COMMANDS uninit flag) = Some s →
       mOpBuffer s = [] ∧ mOpBufferPerFrame s = []).
Proof.
  split.
  - intros s lbl Hrun.
    destruct (run_tables NUM_COMMANDS cstring stat_row cs _ s Hrun) as [-> _].
    rewrite is_Some_fold_update. simpl. split; [|by left].
    intros [H|[x Hx]]; [exact H | discriminate Hx].
  - intros s Hrun.
    by destruct (run_nodebug_tables NUM_COMMANDS cstring stat_row cs _ s Hrun)
      as [-> ->].
Qed.

(** X5. With the tables compiled in, after a preFlush that reads "1" and
    calls among which there is no other preFlush, the per-frame table is the
    table that the records among these calls build from an empty one; it is
    the all-time table that the same calls give a newly constructed
    object. *)
Theorem per_frame_of_a_frame cs s s' :
  forallb (λ c, negb (is_preFlush c)) cs = true →
  run NUM_COMMANDS true cstring stat_row cs (preFlush true "1" s) = Some s' →
  mIsLogCommands s' = true
  ∧ mOpBufferPerFrame s' = table_of (cs ≫= recorded)
  ∧ ∀ uninit flag s0,
      run NUM_COMMANDS true cstring stat_row cs
          (construct NUM_COMMANDS uninit flag) = Some s0 →
      mOpBuffer s0 = mOpBufferPerFrame s'.
Proof.
  intros Hno Hrun.
  destruct (run_tables NUM_COMMANDS cstring stat_row cs _ s' Hrun) as [_ Hp].
  destruct (Hp Hno) as (Hm & Hf). simpl in Hm, Hf.
  split_and!; [done | done |].
  intros uninit flag s0 Hrun0.
  destruct (run_tables NUM_COMMANDS cstring stat_row cs _ s0 Hrun0) as [-> _].
  by rewrite Hf.
Qed.

(** X6. postFlush never changes the object and never writes to a stream. In
    timing mode with a per-frame table that is not empty it sends to the log
    the header and then one row for each entry of the per-frame table, in
    order of non-increasing total; out of timing mode, with an empty
    per-frame table, or with the tables compiled out, it sends nothing. *)
Theorem postFlush_report log s :
  ∃ rows,
    rows ≡ₚ (mOpBufferPerFrame s).*2
    ∧ descending rows
    ∧ postFlush true stat_row log s
      = (s, (None,
             if mIsLogCommands s then
               match mOpBufferPerFrame s with
               | [] => log
               | _ :: _ => log ++ stat_header :: (stat_row <$> rows)
               end
             else log))
    ∧ postFlush false stat_row log s = (s, (None, log)).
Proof.
  exists (sorted_list (mOpBufferPerFrame s)).
  split_and!; [apply sorted_list_perm | apply sorted_list_descending | | done].
  unfold postFlush. by rewrite outputCommandsInternal_log.
Qed.

(** X7. The timing mode changes in preFlush only, where it becomes whether
    the flag read is "1"; the per-frame table changes in preFlush and in
    records only. With the tables compiled out preFlush does nothing. *)
Theorem mode_and_per_frame_changes :
  (∀ c s s',
     is_preFlush c = false →
     exec NUM_COMMANDS DEBUG_DISPLAY_LIST cstring stat_row c s = Some s' →
     mIsLogCommands s' = mIsLogCommands s
     ∧ (is_record c = false → mOpBufferPerFrame s' = mOpBufferPerFrame s))
  ∧ (∀ value s, mIsLogCommands (preFlush true value s) = String.eqb value "1")
  ∧ (∀ value s, preFlush false value s = s).
Proof.
  split_and!; [|done..].
  intros c s s' Hc Hexec.
  destruct c as [lvl l|lvl l d|fuel file|value|]; cbn [exec] in Hexec;
    try discriminate Hc.
  - by injection Hexec as <-.
  - injection Hexec as <-. unfold writeCommand_duration.
    by destruct DEBUG_DISPLAY_LIST.
  - destruct (outputCommands _ _ _ _ _ _ _) as [r| |] eqn:E; [|done..].
    injection Hexec as <-. by rewrite (outputCommands_state _ _ _ _ _ _ _ _ E).
  - injection Hexec as <-. by rewrite postFlush_state.
Qed.

(** X9. On a reachable ring of at least two slots, a write appends its entry
    after the live ones, and drops the oldest of them exactly when the ring
    already holds [NUM_COMMANDS] entries. *)
Theorem write_drops_oldest_when_full lvl lbl s :
  reachable NUM_COMMANDS DEBUG_DISPLAY_LIST cstring stat_row s →
  1 ≤ NUM_COMMANDS →
  live_entries NUM_COMMANDS (writeCommand NUM_COMMANDS lvl lbl s)
  = drop (if live_count NUM_COMMANDS s =? NUM_COMMANDS then 1 else 0)
         (live_entries NUM_COMMANDS s)
    ++ [Some (mkOpLog lvl lbl)].
Proof.
  intros Hr Hn.
  destruct (reachable_ring_inv _ _ _ _ s Hr) as [ws Hinv].
  rewrite (ring_inv_live _ _ _ (ring_inv_write _ ws s lvl lbl Hinv)).
  rewrite (ring_inv_live _ _ _ Hinv), (ring_inv_live_count _ _ _ Hinv).
  rewrite last_n_snoc by done. rewrite fmap_app, fmap_drop. simpl.
  do 2 f_equal.
  destruct (Nat.leb_spec NUM_COMMANDS (length ws)),
           (Nat.eqb_spec (length ws `min` NUM_COMMANDS) NUM_COMMANDS); lia.
Qed.

(** X10. In every state reached from the constructor the slot that a write
    fills is inside the block, and outputCommands on a stream never reads
    outside the block: it returns, or has not yet come to its end. *)
Theorem ring_accesses_in_bounds s :
  reachable NUM_COMMANDS DEBUG_DISPLAY_LIST cstring stat_row s →
  mEnd s < length (mBuffer s)
  ∧ ∀ fuel content log,
      outputCommands NUM_COMMANDS cstring stat_row fuel (Some content) log s
      ≠ Fault.
Proof.
  intros Hr.
  destruct (reachable_ring_inv _ _ _ _ s Hr) as [ws Hinv].
  pose proof (ring_inv_cursors _ _ _ Hinv) as Hv.
  destruct (cursors_valid_lt _ _ Hv) as (Hlen & _ & He).
  split; [lia |].
  intros fuel content log.
  rewrite (outputCommands_dump _ _ _ s content log fuel
             (last_n NUM_COMMANDS ws) Hv (ring_inv_live _ _ _ Hinv)).
  by destruct (decide _).
Qed.

End More.

(** ** The further properties at concrete inputs *)

Lemma sample_recorded_reachable :
  reachable 3 true sample_memory sample_row sample_recorded.
Proof.
  apply (run_reachable 3 true sample_memory sample_row
           [WriteCommandDuration 0 1%N 30; WriteCommandDuration 1 2%N 10;
            WriteCommandDuration 0 3%N 20]
           (construct 3 sample_uninit true)).
  - apply reach_construct.
  - reflexivity.
Qed.

Lemma record_many_witness :
  let s' := record_all 3 1%N [(0, 5); (1, 7); (0, 3)]%Z
              (construct 3 sample_uninit true) in
  valueFor 1%N (mOpBuffer s') = Some (mkOpEntry 1%N 3 7 15 3)
  ∧ valueFor 1%N (mOpBufferPerFrame s') = Some (mkOpEntry 1%N 3 7 15 3).
Proof.
  intros s'.
  destruct (record_many 3 1%N (0, 5)%Z [(1, 7); (0, 3)]%Z
              (construct 3 sample_uninit true)) as (Ha & Hp).
  - repeat constructor; simpl; lia.
  - vm_compute. reflexivity.
  - vm_compute. discriminate.
  - split; [exact (Ha eq_refl) | exact (Hp eq_refl eq_refl)].
Defined.

Lemma tables_well_formed_witness :
  let cs := [WriteCommandDuration 0 2%N 30; PreFlush "1";
             WriteCommandDuration 0 1%N 10; WriteCommand 1 3%N;
             WriteCommandDuration 0 2%N 5; PostFlush] in
  ∃ s,
    run 3 true sample_memory sample_row cs (construct 3 sample_uninit false)
    = Some s
    ∧ (sorted_keys (mOpBuffer s) ∧ Forall stat_ok (mOpBuffer s))
    ∧ (sorted_keys (mOpBufferPerFrame s) ∧ Forall stat_ok (mOpBufferPerFrame s)).
Proof.
  intros cs.
  destruct (run 3 true sample_memory sample_row cs
              (construct 3 sample_uninit false)) as [s|] eqn:E;
    [| by vm_compute in E].
  exists s. split; [done |].
  apply (tables_well_formed 3 true sample_memory sample_row
           sample_uninit false cs s); [| exact E].
  repeat constructor; unfold INT64_MAX; simpl; lia.
Defined.

Lemma per_frame_within_all_time_witness :
  is_Some (valueFor 2%N (mOpBuffer sample_recorded)).
Proof.
  apply (per_frame_within_all_time 3 true sample_memory sample_row
           sample_recorded 2%N sample_recorded_reachable).
  by eexists.
Defined.

Lemma all_time_labels_witness :
  let cs := [WriteCommandDuration 0 2%N 30; WriteCommand 0 1%N; PreFlush "0";
             WriteCommandDuration 1 3%N 10] in
  ∃ s s0,
    run 3 true sample_memory sample_row cs (construct 3 sample_uninit false)
    = Some s
    ∧ (is_Some (valueFor 3%N (mOpBuffer s)) ↔ 3%N ∈ (cs ≫= recorded).*1)
    ∧ run 3 false sample_memory sample_row cs (construct 3 sample_uninit false)
      = Some s0
    ∧ mOpBuffer s0 = [] ∧ mOpBufferPerFrame s0 = [].
Proof.
  intros cs.
  destruct (run 3 true sample_memory sample_row cs
              (construct 3 sample_uninit false)) as [s|] eqn:E;
    [| by vm_compute in E].
  destruct (run 3 false sample_memory sample_row cs
              (construct 3 sample_uninit false)) as [s0|] eqn:E0;
    [| by vm_compute in E0].
  destruct (all_time_labels 3 sample_memory sample_row sample_uninit false cs)
    as (Hon & Hoff).
  exists s, s0.
  split_and!; [done | exact (Hon s 3%N E) | done | exact (proj1 (Hoff s0 E0))
              | exact (proj2 (Hoff s0 E0))].
Defined.

Lemma per_frame_of_a_frame_witness :
  let cs := [WriteCommandDuration 0 1%N 30; WriteCommand 0 2%N;
             WriteCommandDuration 1 1%N 5; PostFlush] in
  ∃ s',
    run 3 true sample_memory sample_row cs (preFlush true "1" sample_recorded)
    = Some s'
    ∧ mIsLogCommands s' = true
    ∧ mOpBufferPerFrame s' = table_of (cs ≫= recorded).
Proof.
  intros cs.
  destruct (run 3 true sample_memory sample_row cs
              (preFlush true "1" sample_recorded)) as [s'|] eqn:E;
    [| by vm_compute in E].
  exists s'.
  destruct (per_frame_of_a_frame 3 sample_memory sample_row cs sample_recorded s'
              eq_refl E) as (Hm & Hf & _).
  by split_and!.
Defined.

Lemma mode_and_per_frame_changes_witness :
  let s' := writeCommand 3 0 4%N sample_recorded in
  mIsLogCommands s' = mIsLogCommands sample_recorded
  ∧ mOpBufferPerFrame s' = mOpBufferPerFrame sample_recorded
  ∧ mIsLogCommands (preFlush true "0" sample_recorded) = String.eqb "0" "1".
Proof.
  intros s'.
  destruct (mode_and_per_frame_changes 3 true sample_memory sample_row)
    as (Hkeep & Hset & _).
  destruct (Hkeep (WriteCommand 0 4%N) sample_recorded s' eq_refl eq_refl)
    as (Hm & Hp).
  split_and!; [exact Hm | exact (Hp eq_refl) | apply Hset].
Defined.

Lemma write_drops_oldest_when_full_witness :
  live_entries 3 (writeCommand 3 0 4%N sample_recorded)
  = drop (if live_count 3 sample_recorded =? 3 then 1 else 0)
         (live_entries 3 sample_recorded)
    ++ [Some (mkOpLog 0 4%N)].
Proof.
  apply (write_drops_oldest_when_full 3 true sample_memory sample_row
           0 4%N sample_recorded sample_recorded_reachable).
  lia.
Defined.

Lemma ring_accesses_in_bounds_witness :
  mEnd sample_recorded < length (mBuffer sample_recorded)
  ∧ outputCommands 3 sample_memory sample_row 2 (Some "") [] sample_recorded
    ≠ Fault.
Proof.
  destruct (ring_accesses_in_bounds 3 true sample_memory sample_row
              sample_recorded sample_recorded_reachable) as (Hin & Hout).
  split; [exact Hin | apply Hout].
Defined.
